(** * go-nbreader: a non-blocking io.Reader

    A shallow embedding of [nbreader.go] and the properties of its
    [Read], [readInput] and [readWithTimeout].

    Modelling decisions.
    - A [time.Duration] is an int64 count of nanoseconds: a [Z], with the
      wrap-around of Go's subtraction written out ([Duration_sub]).
    - [time.Now()] is a reading of the monotonic clock, a [Z]; [Sub] is
      the saturating difference of package time.
    - The underlying [io.Reader] is the script of the results of its
      successive [Read] calls; the end of the script is a reader that
      never returns.
    - The goroutine [readInput] and the unbuffered [dataChan] are
      sequentialised: the channel is the queue of the slices [readInput]
      will offer, in order, followed by how the goroutine ends.
    - Each round of the waiting loop of [Read] observes the clock four
      times and the [select] once: these observations are the input
      [iterObs] of the round; which case of the [select] is taken is
      part of the observation, the timeout computed by [Read] is kept
      in the log of the round.  A script of rounds that ends while the
      loop still runs gives [None]. *)

From Stdlib Require Import ZArith List Bool Lia.
From Stdlib.Strings Require Import Byte.
Import ListNotations.
Local Open Scope Z_scope.

(** ** Machine integers and package time *)

Module time.

Definition Duration := Z.
Definition Time := Z.

Definition minDuration : Duration := - 2 ^ 63.
Definition maxDuration : Duration := 2 ^ 63 - 1.

(** int64 arithmetic wraps around. *)
Definition wrap64 (z : Z) : Z := (z + 2 ^ 63) mod 2 ^ 64 - 2 ^ 63.

(** [a - b] on two Durations. *)
Definition Duration_sub (a b : Duration) : Duration := wrap64 (a - b).

(** [t.Sub(u)] on two monotonic readings: the difference, saturated. *)
Definition Sub (t u : Time) : Duration :=
  let d := wrap64 (t - u) in
  if (d <? 0) && (u <? t) then maxDuration
  else if (0 <? d) && (t <? u) then minDuration
  else d.

End time.

Import time.

(** ** Errors *)

Inductive error : Type :=
| ErrNil                     (* nil *)
| io_EOF                     (* io.EOF *)
| errTimeout                 (* the package's errTimeout *)
| errSource (code : nat).    (* any other error of the underlying reader *)

Definition error_eqb (a b : error) : bool :=
  match a, b with
  | ErrNil, ErrNil => true
  | io_EOF, io_EOF => true
  | errTimeout, errTimeout => true
  | errSource m, errSource n => Nat.eqb m n
  | _, _ => false
  end.

(** ** bytes.Buffer: the unread bytes *)

Module Buffer.

Definition t := list byte.

Definition Len (b : t) : nat := length b.

Definition Write (b : t) (p : list byte) : t := b ++ p.

(** [b.Read(p)] with [len(p) = n]: the bytes copied to [p], the error,
    and the buffer left.  An empty buffer gives [io.EOF] unless
    [len(p) = 0]. *)
Definition Read (b : t) (n : nat) : list byte * error * t :=
  match b with
  | [] => if Nat.eqb n 0 then ([], ErrNil, []) else ([], io_EOF, [])
  | _ => (firstn n b, ErrNil, skipn n b)
  end.

End Buffer.

(** ** The underlying reader and the producer goroutine *)

(** One result of [r.reader.Read(tmp)]: the bytes of [tmp[0:length]] and
    [err]. *)
Record readResult : Type := mkRes {
  rr_data : list byte;
  rr_err : error
}.

Definition ioReader := list readResult.

(** How the goroutine ends: [close(r.dataChan)] was reached, the reader
    never returned, or a run-time panic ([make] with a negative size,
    [tmp[0:length]] out of range). *)
Inductive producerEnd : Type := Closed | Blocked | Panicked.

Record chan : Type := mkChan {
  queue : list (list byte);
  ending : producerEnd
}.

(** [readInput]: the slices sent on [dataChan], in order, and the end. *)
Fixpoint readInput (blockSize : Z) (reader : ioReader) : chan :=
  if blockSize <? 0 then mkChan [] Panicked
  else
    match reader with
    | [] => mkChan [] Blocked
    | res :: reader' =>
        if error_eqb (rr_err res) ErrNil then
          if Z.of_nat (length (rr_data res)) <=? blockSize then
            let c := readInput blockSize reader' in
            mkChan (rr_data res :: queue c) (ending c)
          else mkChan [] Panicked
        else mkChan [] Closed
    end.

(** ** NBReader *)

Record NBReader : Type := mkNBReader {
  blockSize : Z;
  reader : ioReader;
  dataChan : chan;
  buffer : Buffer.t;
  chunkTimeout : Duration;
  forceTimeout : Duration;
  isEOF : bool
}.

Definition set_buffer (r : NBReader) (b : Buffer.t) : NBReader :=
  mkNBReader (blockSize r) (reader r) (dataChan r) b
             (chunkTimeout r) (forceTimeout r) (isEOF r).

Definition set_dataChan (r : NBReader) (c : chan) : NBReader :=
  mkNBReader (blockSize r) (reader r) c (buffer r)
             (chunkTimeout r) (forceTimeout r) (isEOF r).

Definition set_isEOF (r : NBReader) (e : bool) : NBReader :=
  mkNBReader (blockSize r) (reader r) (dataChan r) (buffer r)
             (chunkTimeout r) (forceTimeout r) e.

Definition Option := NBReader -> NBReader.

Definition ChunkTimeout (duration : Duration) : Option :=
  fun r => mkNBReader (blockSize r) (reader r) (dataChan r) (buffer r)
                      duration (forceTimeout r) (isEOF r).

Definition Timeout (duration : Duration) : Option :=
  fun r => mkNBReader (blockSize r) (reader r) (dataChan r) (buffer r)
                      (chunkTimeout r) duration (isEOF r).

(** [NewNBReader]: the options are applied, then the goroutine starts. *)
Definition NewNBReader (rd : ioReader) (bs : Z) (options : list Option)
  : NBReader :=
  let r := mkNBReader bs rd (mkChan [] Blocked) [] 0 0 false in
  let r := fold_left (fun r option => option r) options r in
  set_dataChan r (readInput (blockSize r) (reader r)).

(** ** readWithTimeout *)

(** The [select]: when [timer_first] the case [<-time.After(timeout)] is
    taken; otherwise the receive is, when the channel can deliver (a
    queued slice, or the closed channel's zero value).  A channel that
    can never deliver leaves only the timer. *)
Definition readWithTimeout (r : NBReader) (timeout : Duration)
           (timer_first : bool) : nat * error * NBReader :=
  if timer_first then (0%nat, errTimeout, r)
  else
    match queue (dataChan r), ending (dataChan r) with
    | data :: q, e =>
        let r := set_dataChan r (mkChan q e) in
        let r := set_buffer r (Buffer.Write (buffer r) data) in
        (length data, ErrNil, r)
    | [], Closed =>
        let r := set_buffer r (Buffer.Write (buffer r) []) in
        (0%nat, io_EOF, r)
    | [], _ => (0%nat, errTimeout, r)
    end.

(** ** Read *)

(** What one round of the loop observes. *)
Record iterObs : Type := mkObs {
  now_lastStart : Time;     (* lastStart = time.Now() *)
  now_remaining : Time;     (* time.Now() in the computation of remaining *)
  timer_first : bool;       (* the select takes the timer case *)
  now_duration : Time;      (* time.Now() in duration *)
  now_force : Time          (* time.Now() in the last test of the round *)
}.

(** What one round did. *)
Record iterLog : Type := mkLog {
  it_remaining : Duration;
  it_nextTimeout : Duration;   (* the timeout given to readWithTimeout *)
  it_err : error;              (* the error of readWithTimeout *)
  it_duration : Duration;
  it_elapsed : Duration;       (* now_force - start *)
  it_buflen : nat;             (* r.buffer.Len() after the round *)
  it_setEOF : bool             (* r.isEOF = true was executed *)
}.

Definition remaining_of (r : NBReader) (start now : Time) : Duration :=
  Duration_sub (forceTimeout r) (Sub now start).

Definition nextTimeout_of (r : NBReader) (remaining : Duration) : Duration :=
  if (chunkTimeout r =? 0) || (chunkTimeout r >? remaining)
  then remaining else chunkTimeout r.

Inductive control : Type := Break | Continue.

(** The body of the loop. *)
Definition Read_round (r : NBReader) (start : Time) (o : iterObs)
  : control * NBReader * iterLog :=
  let lastStart := now_lastStart o in
  let remaining := remaining_of r start (now_remaining o) in
  let nextTimeout := nextTimeout_of r remaining in
  let '(_, err, r1) := readWithTimeout r nextTimeout (timer_first o) in
  let duration := Sub (now_duration o) lastStart in
  let elapsed := Sub (now_force o) start in
  let entry := mkLog remaining nextTimeout err duration elapsed
                     (Buffer.Len (buffer r1)) in
  if error_eqb err errTimeout && (duration >=? chunkTimeout r) then
    (Break, r1, entry false)
  else if error_eqb err io_EOF then
    (Break, set_isEOF r1 true, entry true)
  else if elapsed >=? forceTimeout r then
    (Break, r1, entry false)
  else
    (Continue, r1, entry false).

(** The loop [for r.buffer.Len() < len(buffer)], one observation per
    round. *)
Fixpoint Read_loop (r : NBReader) (len : nat) (start : Time)
         (obs : list iterObs) : option (NBReader * list iterLog) :=
  if (Buffer.Len (buffer r) <? len)%nat then
    match obs with
    | [] => None
    | o :: obs' =>
        match Read_round r start o with
        | (Break, r1, entry) => Some (r1, [entry])
        | (Continue, r1, entry) =>
            match Read_loop r1 len start obs' with
            | None => None
            | Some (r2, log) => Some (r2, entry :: log)
            end
        end
    end
  else Some (r, []).

(** The result of a call: the bytes copied to the caller's slice (their
    number is the returned count), the error, the reader afterwards and
    the rounds of the loop. *)
Record readOut : Type := mkOut {
  out_data : list byte;
  out_err : error;
  out_r : NBReader;
  out_log : list iterLog
}.

Definition out_n (o : readOut) : nat := length (out_data o).

(** [Read(buffer)] with [len(buffer) = len]; [start] is the reading of
    the clock at the call. *)
Definition Read (r : NBReader) (len : nat) (start : Time)
           (obs : list iterObs) : option readOut :=
  if (len <=? Buffer.Len (buffer r))%nat then
    let '(ret, _, b) := Buffer.Read (buffer r) len in
    Some (mkOut ret ErrNil (set_buffer r b) [])
  else if isEOF r then
    let '(ret, err, b) := Buffer.Read (buffer r) len in
    Some (mkOut ret err (set_buffer r b) [])
  else
    match Read_loop r len start obs with
    | None => None
    | Some (r1, log) =>
        let '(ret, _, b) := Buffer.Read (buffer r1) len in
        Some (mkOut ret ErrNil (set_buffer r1 b) log)
    end.

(** ** Sequences of calls *)

Record call : Type := mkCall {
  c_len : nat;
  c_start : Time;
  c_obs : list iterObs
}.

Fixpoint run (r : NBReader) (calls : list call)
  : option (NBReader * list readOut) :=
  match calls with
  | [] => Some (r, [])
  | c :: calls' =>
      match Read r (c_len c) (c_start c) (c_obs c) with
      | None => None
      | Some o =>
          match run (out_r o) calls' with
          | None => None
          | Some (r', outs) => Some (r', o :: outs)
          end
      end
  end.

(** ** Notions used by the statements *)

(** The unread bytes still on their way: the slices the goroutine has
    yet to hand over. *)
Definition pending (r : NBReader) : list byte := concat (queue (dataChan r)).

(** The bytes a sequence of calls returned. *)
Definition returned (outs : list readOut) : list byte :=
  concat (map out_data outs).

(** The bytes the underlying reader produced for the goroutine: those
    of every [Read] it answered, up to and including the first one with
    an error. *)
Fixpoint produced (rd : ioReader) : list byte :=
  match rd with
  | [] => []
  | res :: rd' =>
      if error_eqb (rr_err res) ErrNil then rr_data res ++ produced rd'
      else rr_data res
  end.




(** The options of the package. *)
Definition package_option (op : Option) : Prop :=
  exists d, op = ChunkTimeout d \/ op = Timeout d.

(** A monotonic clock, as far as one round sees it. *)
Definition clock_monotone (start : Time) (o : iterObs) : Prop :=
  start <= now_lastStart o /\ now_lastStart o <= now_remaining o /\
  now_remaining o <= now_duration o /\ now_duration o <= now_force o.

(** The state between calls: the channel is what is left of the
    goroutine's output, and [isEOF] records a closed, drained channel. *)
Definition consistent (r : NBReader) : Prop :=
  ending (dataChan r) = ending (readInput (blockSize r) (reader r)) /\
  (isEOF r = true ->
   queue (dataChan r) = [] /\ ending (dataChan r) = Closed).

(** ** The steps of a call, as relations *)

(** What [readWithTimeout] can do: time out, take the next slice, or
    see the closed channel. *)
Inductive received (r : NBReader) : error -> NBReader -> Prop :=
| rcv_timeout : received r errTimeout r
| rcv_chunk data q :
    queue (dataChan r) = data :: q ->
    received r ErrNil
      (set_buffer (set_dataChan r (mkChan q (ending (dataChan r))))
                  (buffer r ++ data))
| rcv_closed :
    queue (dataChan r) = [] -> ending (dataChan r) = Closed ->
    received r io_EOF (set_buffer r (buffer r ++ [])).

(** A round, seen from outside. *)
Record round_spec (r : NBReader) (start : Time) (o : iterObs)
       (c : control) (r1 : NBReader) (e : iterLog) : Prop := {
  rs_received : received r (it_err e) (set_isEOF r1 (isEOF r));
  rs_remaining : it_remaining e = remaining_of r start (now_remaining o);
  rs_nextTimeout : it_nextTimeout e = nextTimeout_of r (it_remaining e);
  rs_duration : it_duration e = Sub (now_duration o) (now_lastStart o);
  rs_elapsed : it_elapsed e = Sub (now_force o) start;
  rs_buflen : it_buflen e = Buffer.Len (buffer r1);
  rs_isEOF : isEOF r1 = isEOF r || it_setEOF e;
  rs_setEOF : it_setEOF e = true <-> it_err e = io_EOF;
  rs_control :
    c = if (error_eqb (it_err e) errTimeout
            && (it_duration e >=? chunkTimeout r))
           || error_eqb (it_err e) io_EOF
           || (it_elapsed e >=? forceTimeout r)
        then Break else Continue
}.

(** The three paths of [Read]. *)
Inductive Read_path (r : NBReader) (len : nat) (start : Time)
          (obs : list iterObs) : readOut -> Prop :=
| path_enough :
    (len <= Buffer.Len (buffer r))%nat ->
    Read_path r len start obs
      (mkOut (firstn len (buffer r)) ErrNil
             (set_buffer r (skipn len (buffer r))) [])
| path_eof :
    (Buffer.Len (buffer r) < len)%nat -> isEOF r = true ->
    Read_path r len start obs
      (mkOut (firstn len (buffer r))
             (match buffer r with [] => io_EOF | _ => ErrNil end)
             (set_buffer r (skipn len (buffer r))) [])
| path_wait r1 log :
    (Buffer.Len (buffer r) < len)%nat -> isEOF r = false ->
    Read_loop r len start obs = Some (r1, log) ->
    Read_path r len start obs
      (mkOut (firstn len (buffer r1)) ErrNil
             (set_buffer r1 (skipn len (buffer r1))) log).

(** ** Scenarios *)

Definition ab : list byte := [x61; x62].
Definition cd : list byte := [x63; x64].

(** Block size 4; the reader yields "ab", then "cd", then [io.EOF]. *)
Definition two_chunks : ioReader :=
  [mkRes ab ErrNil; mkRes cd ErrNil; mkRes [] io_EOF].

Definition r_two_chunks : NBReader :=
  NewNBReader two_chunks 4 [Timeout 1000000; ChunkTimeout 1000].

Definition obs_two_chunks : list iterObs :=
  [mkObs 1 1 false 5 5; mkObs 6 6 false 9 9].

(** Three calls for 4 bytes: the data, the closed channel, [io.EOF]. *)
Definition calls_two_chunks : list call :=
  [mkCall 4 0 obs_two_chunks;
   mkCall 4 20 [mkObs 21 21 false 22 22];
   mkCall 4 30 []].

(** The reader after the first two of these calls, and what the three
    calls return. *)
Definition r_drained : NBReader :=
  mkNBReader 4 two_chunks (mkChan [] Closed) [] 1000 1000000 true.

Definition outs_two_chunks : list readOut :=
  Eval vm_compute in
    match run r_two_chunks calls_two_chunks with
    | Some (_, outs) => outs
    | None => []
    end.

(** The reader hands over "ab" together with [io.EOF]. *)
Definition data_with_error : ioReader := [mkRes ab io_EOF].

(** Block size 2; the reader yields "ab" and then never returns. *)
Definition one_block : ioReader := [mkRes ab ErrNil].

Definition r_one_block : NBReader := NewNBReader one_block 2 [Timeout 1000].

(** * Properties *)

(** ** Arithmetic of package time *)

Lemma error_eqb_eq (a b : error) : error_eqb a b = true <-> a = b.
Proof.
  destruct a, b; simpl; split; intro H; try congruence; try discriminate.
  - apply Nat.eqb_eq in H. now subst.
  - injection H as ->. apply Nat.eqb_refl.
Qed.

Lemma error_eqb_neq (a b : error) : error_eqb a b = false <-> a <> b.
Proof.
  split; intro H.
  - intro E. apply error_eqb_eq in E. congruence.
  - destruct (error_eqb a b) eqn:E; [|reflexivity].
    apply error_eqb_eq in E. contradiction.
Qed.

Lemma wrap64_range (z : Z) : minDuration <= wrap64 z <= maxDuration.
Proof.
  unfold wrap64, minDuration, maxDuration.
  pose proof (Z.mod_pos_bound (z + 2 ^ 63) (2 ^ 64) ltac:(lia)). lia.
Qed.

Lemma wrap64_small (z : Z) : minDuration <= z <= maxDuration -> wrap64 z = z.
Proof.
  unfold wrap64, minDuration, maxDuration. intros H.
  rewrite Z.mod_small by lia. lia.
Qed.

Lemma Sub_range (t u : Time) : minDuration <= Sub t u <= maxDuration.
Proof.
  unfold Sub. pose proof (wrap64_range (t - u)).
  destruct (_ && _); [unfold minDuration, maxDuration; lia|].
  destruct (_ && _); [unfold minDuration, maxDuration; lia|]. assumption.
Qed.

(** A monotonic clock never gives a negative elapsed time. *)
Lemma Sub_nonneg (t u : Time) : u <= t -> 0 <= Sub t u.
Proof.
  intros H. unfold Sub.
  destruct (Z.ltb_spec (wrap64 (t - u)) 0) as [Hd|Hd];
    destruct (Z.ltb_spec u t) as [Hu|Hu]; simpl.
  - unfold maxDuration. lia.
  - assert (t = u) by lia. subst. rewrite Z.sub_diag in Hd.
    vm_compute in Hd. discriminate.
  - destruct (Z.ltb_spec 0 (wrap64 (t - u)));
      destruct (Z.ltb_spec t u); simpl; lia.
  - destruct (Z.ltb_spec 0 (wrap64 (t - u)));
      destruct (Z.ltb_spec t u); simpl; lia.
Qed.

(** Without overflow, [remaining] is the overall timeout minus the
    elapsed time. *)
Lemma remaining_of_exact (r : NBReader) (start now : Time) :
  0 <= forceTimeout r <= maxDuration -> start <= now ->
  remaining_of r start now = forceTimeout r - Sub now start.
Proof.
  intros Hf Hn. unfold remaining_of, Duration_sub.
  pose proof (Sub_nonneg now start Hn). pose proof (Sub_range now start).
  apply wrap64_small. unfold minDuration, maxDuration in *. lia.
Qed.

(** ** bytes.Buffer *)

Lemma Buffer_Read_data (b : Buffer.t) (n : nat) :
  fst (fst (Buffer.Read b n)) = firstn n b.
Proof. destruct b; simpl; [|reflexivity]. destruct n; reflexivity. Qed.

Lemma Buffer_Read_rest (b : Buffer.t) (n : nat) :
  snd (Buffer.Read b n) = skipn n b.
Proof. destruct b; simpl; [|reflexivity]. destruct n; reflexivity. Qed.

Lemma Buffer_Read_err (b : Buffer.t) (n : nat) :
  snd (fst (Buffer.Read b n)) =
  match b, n with [], S _ => io_EOF | _, _ => ErrNil end.
Proof. destruct b; simpl; [|reflexivity]. destruct n; reflexivity. Qed.

Lemma Buffer_Read_eq (b : Buffer.t) (n : nat) :
  Buffer.Read b n =
  (firstn n b, match b, n with [], S _ => io_EOF | _, _ => ErrNil end,
   skipn n b).
Proof.
  rewrite <- Buffer_Read_data, <- Buffer_Read_rest, <- Buffer_Read_err.
  destruct (Buffer.Read b n) as [[? ?] ?]. reflexivity.
Qed.

(** ** One receive, one round *)

Lemma readWithTimeout_received r timeout tf n err r1 :
  readWithTimeout r timeout tf = (n, err, r1) -> received r err r1.
Proof.
  unfold readWithTimeout. destruct tf.
  - intros H. injection H as <- <- <-. constructor.
  - destruct (queue (dataChan r)) as [|data q] eqn:Hq.
    + destruct (ending (dataChan r)) eqn:He; intros H;
        injection H as <- <- <-; try constructor; assumption.
    + intros H. injection H as <- <- <-.
      unfold Buffer.Write. simpl. now apply rcv_chunk.
Qed.

Lemma set_isEOF_same (r : NBReader) : set_isEOF r (isEOF r) = r.
Proof. destruct r; reflexivity. Qed.

Lemma received_isEOF r err r1 : received r err r1 -> isEOF r1 = isEOF r.
Proof. destruct 1; reflexivity. Qed.

Lemma Read_round_spec r start o c r1 e :
  Read_round r start o = (c, r1, e) -> round_spec r start o c r1 e.
Proof.
  unfold Read_round.
  destruct (readWithTimeout r _ (timer_first o)) as [[n err] r'] eqn:Hr.
  apply readWithTimeout_received in Hr.
  pose proof (received_isEOF _ _ _ Hr) as Hiso.
  assert (Hsame1 : set_isEOF (set_isEOF r' true) (isEOF r) = r')
    by (rewrite <- Hiso; destruct r'; reflexivity).
  pose proof (set_isEOF_same r') as Hsame0. rewrite Hiso in Hsame0.
  destruct err; simpl;
    destruct (Sub (now_duration o) (now_lastStart o) >=? chunkTimeout r)
      eqn:Ed;
    destruct (Sub (now_force o) start >=? forceTimeout r) eqn:Ee;
    simpl; intros H; injection H as <- <- <-;
    (constructor; simpl; rewrite ?Ed, ?Ee, ?Hsame0, ?Hsame1, ?Hiso,
                         ?orb_false_r, ?orb_true_r;
     try reflexivity; try assumption; try (split; congruence)).
Qed.

(** A round never touches the configuration. *)
Lemma received_config r err r1 :
  received r err r1 ->
  blockSize r1 = blockSize r /\ reader r1 = reader r /\
  chunkTimeout r1 = chunkTimeout r /\ forceTimeout r1 = forceTimeout r.
Proof. destruct 1; simpl; auto. Qed.

(** A round moves bytes from the channel to the buffer, in order. *)
Lemma received_bytes r err r1 :
  received r err r1 ->
  buffer r1 ++ pending r1 = buffer r ++ pending r /\
  ending (dataChan r1) = ending (dataChan r).
Proof.
  destruct 1 as [|data q Hq|Hq He]; unfold pending; simpl; auto.
  - rewrite Hq. simpl. now rewrite <- app_assoc.
  - now rewrite app_nil_r.
Qed.

(** ** Induction on the rounds of the loop *)

Section LoopInduction.

Variables (len : nat) (start : Time).
Variable P : NBReader -> list iterObs -> NBReader -> list iterLog -> Prop.

Hypothesis Penough : forall r obs,
    (len <= Buffer.Len (buffer r))%nat -> P r obs r [].
Hypothesis Pbreak : forall r o obs r1 e,
    (Buffer.Len (buffer r) < len)%nat ->
    Read_round r start o = (Break, r1, e) -> P r (o :: obs) r1 [e].
Hypothesis Pcontinue : forall r o obs r1 e r2 log,
    (Buffer.Len (buffer r) < len)%nat ->
    Read_round r start o = (Continue, r1, e) ->
    Read_loop r1 len start obs = Some (r2, log) ->
    P r1 obs r2 log -> P r (o :: obs) r2 (e :: log).

Lemma Read_loop_rounds_ind : forall obs r r2 log,
    Read_loop r len start obs = Some (r2, log) -> P r obs r2 log.
Proof.
  induction obs as [|o obs IH]; intros r r2 log; simpl;
    destruct (Nat.ltb_spec (Buffer.Len (buffer r)) len) as [Hlt|Hge];
    try discriminate;
    try (intros H; injection H as <- <-; now apply Penough).
  destruct (Read_round r start o) as [[c r1] e] eqn:Hr. destruct c.
  - intros H; injection H as <- <-. now apply Pbreak.
  - destruct (Read_loop r1 len start obs) as [[r3 log3]|] eqn:Hl;
      [|discriminate].
    intros H; injection H as <- <-. eapply Pcontinue; eauto.
Qed.

End LoopInduction.

Lemma Read_round_config r start o c r1 e :
  Read_round r start o = (c, r1, e) ->
  blockSize r1 = blockSize r /\ reader r1 = reader r /\
  chunkTimeout r1 = chunkTimeout r /\ forceTimeout r1 = forceTimeout r.
Proof.
  intros H. apply Read_round_spec in H.
  apply (received_config _ _ _ (rs_received _ _ _ _ _ _ H)).
Qed.

Lemma Read_round_bytes r start o c r1 e :
  Read_round r start o = (c, r1, e) ->
  buffer r1 ++ pending r1 = buffer r ++ pending r /\
  ending (dataChan r1) = ending (dataChan r).
Proof.
  intros H. apply Read_round_spec in H.
  apply (received_bytes _ _ _ (rs_received _ _ _ _ _ _ H)).
Qed.

Lemma Read_loop_config r len start obs r2 log :
  Read_loop r len start obs = Some (r2, log) ->
  blockSize r2 = blockSize r /\ reader r2 = reader r /\
  chunkTimeout r2 = chunkTimeout r /\ forceTimeout r2 = forceTimeout r.
Proof.
  revert obs r r2 log. apply Read_loop_rounds_ind.
  - auto.
  - intros r o obs r1 e _ H. now apply Read_round_config in H.
  - intros r o obs r1 e r2 log _ H _ IH.
    apply Read_round_config in H. intuition congruence.
Qed.

Lemma Read_loop_bytes r len start obs r2 log :
  Read_loop r len start obs = Some (r2, log) ->
  buffer r2 ++ pending r2 = buffer r ++ pending r /\
  ending (dataChan r2) = ending (dataChan r).
Proof.
  revert obs r r2 log. apply Read_loop_rounds_ind.
  - auto.
  - intros r o obs r1 e _ H. now apply Read_round_bytes in H.
  - intros r o obs r1 e r2 log _ H _ IH.
    apply Read_round_bytes in H. intuition congruence.
Qed.

(** The loop has a result as soon as the script reaches a round whose
    last reading of the clock is past the overall timeout. *)
Lemma Read_loop_returns r len start obs :
  Exists (fun o => forceTimeout r <= Sub (now_force o) start) obs ->
  exists res, Read_loop r len start obs = Some res.
Proof.
  intros H. revert r H. induction obs as [|o obs IH]; intros r H.
  - inversion H.
  - simpl. destruct (_ <? _)%nat; [|eauto].
    destruct (Read_round r start o) as [[c r1] e] eqn:Hr.
    destruct c; [eauto|].
    pose proof (Read_round_config _ _ _ _ _ _ Hr) as (_ & _ & _ & Hf).
    apply Read_round_spec in Hr.
    inversion H as [? ? Hnow|? ? Hlater]; subst.
    + exfalso. pose proof (rs_control _ _ _ _ _ _ Hr) as Hc.
      rewrite (rs_elapsed _ _ _ _ _ _ Hr) in Hc.
      apply Z.geb_le in Hnow. rewrite Hnow, orb_true_r in Hc.
      discriminate.
    + rewrite <- Hf in Hlater. destruct (IH r1 Hlater) as [[r2 log] ->].
      eauto.
Qed.

(** ** The three paths of Read *)

Lemma Read_inv r len start obs o :
  Read r len start obs = Some o -> Read_path r len start obs o.
Proof.
  unfold Read.
  destruct (Nat.leb_spec len (Buffer.Len (buffer r))) as [Hle|Hlt].
  - rewrite Buffer_Read_eq. intros H; injection H as <-. now constructor.
  - destruct (isEOF r) eqn:He.
    + rewrite Buffer_Read_eq. intros H; injection H as <-.
      replace (match buffer r, len with [], S _ => io_EOF | _, _ => ErrNil end)
        with (match buffer r with [] => io_EOF | _ => ErrNil end)
        by (destruct (buffer r), len; simpl in *; try reflexivity; lia).
      now constructor.
    + destruct (Read_loop r len start obs) as [[r1 log]|] eqn:Hl;
        [|discriminate].
      rewrite Buffer_Read_eq. intros H; injection H as <-.
      now apply path_wait.
Qed.

Lemma Read_enough r len start obs :
  (len <= Buffer.Len (buffer r))%nat ->
  Read r len start obs =
  Some (mkOut (firstn len (buffer r)) ErrNil
              (set_buffer r (skipn len (buffer r))) []).
Proof.
  intros H. unfold Read. apply Nat.leb_le in H. rewrite H.
  now rewrite Buffer_Read_eq.
Qed.


(** ** C5: enough bytes buffered *)

(** C5.  When the buffer already holds at least [len] bytes, [Read]
    returns exactly the first [len] buffered bytes with a nil error, on
    every script of the environment and without any round of the
    waiting loop (no call of [readWithTimeout], the channel untouched);
    in particular a call with [len = 0] returns 0 bytes, nil and leaves
    the reader as it was, whatever [isEOF] is. *)
Theorem Read_enough_buffered :
  (forall r len start obs,
      (len <= Buffer.Len (buffer r))%nat ->
      exists o,
        Read r len start obs = Some o /\ out_n o = len /\
        out_data o = firstn len (buffer r) /\ out_err o = ErrNil /\
        out_log o = [] /\
        out_r o = set_buffer r (skipn len (buffer r))) /\
  (forall r start obs,
      exists o,
        Read r 0 start obs = Some o /\ out_n o = 0%nat /\
        out_err o = ErrNil /\ out_log o = [] /\ out_r o = r).
Proof.
  split.
  - intros r len start obs H. eexists. split; [now apply Read_enough|].
    unfold out_n. simpl. repeat split.
    apply firstn_length_le. exact H.
  - intros r start obs. eexists. split; [apply Read_enough; lia|].
    unfold out_n. simpl. repeat split. destruct r; reflexivity.
Qed.

Lemma Read_enough_buffered_witness :
  exists o,
    Read (mkNBReader 4 [] (mkChan [] Blocked) [x61; x62; x63] 0 0 true)
         2 0 [] = Some o /\ out_n o = 2%nat /\
    out_data o = [x61; x62] /\ out_err o = ErrNil /\ out_log o = [] /\
    out_r o = mkNBReader 4 [] (mkChan [] Blocked) [x63] 0 0 true.
Proof.
  apply (proj1 Read_enough_buffered
           (mkNBReader 4 [] (mkChan [] Blocked) [x61; x62; x63] 0 0 true)
           2%nat 0 []).
  simpl. lia.
Defined.

(** ** C4: the bound of each wait *)

Lemma nextTimeout_of_min (r : NBReader) (remaining : Duration) :
  nextTimeout_of r remaining =
  if chunkTimeout r =? 0 then remaining
  else Z.min remaining (chunkTimeout r).
Proof.
  unfold nextTimeout_of. destruct (chunkTimeout r =? 0); simpl; [reflexivity|].
  rewrite Z.gtb_ltb.
  destruct (Z.ltb_spec remaining (chunkTimeout r)); lia.
Qed.

Lemma Read_loop_nth r len start obs r2 log :
  Read_loop r len start obs = Some (r2, log) ->
  forall k e, nth_error log k = Some e ->
  exists ob, nth_error obs k = Some ob /\
    it_remaining e = remaining_of r start (now_remaining ob) /\
    it_nextTimeout e = nextTimeout_of r (it_remaining e).
Proof.
  revert obs r r2 log.
  apply (Read_loop_rounds_ind len start
           (fun r obs r2 log =>
              forall k e, nth_error log k = Some e ->
              exists ob, nth_error obs k = Some ob /\
                it_remaining e = remaining_of r start (now_remaining ob) /\
                it_nextTimeout e = nextTimeout_of r (it_remaining e))).
  - intros r obs _ [|k] e H; discriminate.
  - intros r o obs r1 e _ Hr [|[|k]] e' H; try discriminate.
    injection H as <-. apply Read_round_spec in Hr.
    exists o. split; [reflexivity|]. split; apply Hr.
  - intros r o obs r1 e r2 log _ Hr _ IH [|k] e' H.
    + injection H as <-. apply Read_round_spec in Hr.
      exists o. split; [reflexivity|]. split; apply Hr.
    + destruct (IH k e' H) as (ob & Hob & Hrem & Hnext).
      apply Read_round_config in Hr. destruct Hr as (_ & _ & Hc & Hf).
      exists ob. split; [exact Hob|].
      unfold remaining_of, nextTimeout_of in *.
      rewrite <- Hc, <- Hf. auto.
Qed.

(** C4.  In every round of the waiting loop of any call, the timeout
    handed to [readWithTimeout] is the smaller of [remaining] and the
    chunk timeout, and [remaining] itself when the chunk timeout is
    zero; [remaining] being the overall timeout minus the time elapsed
    since the start of the call, in Duration arithmetic. *)
Theorem nextTimeout_is_min r len start obs o k e :
  Read r len start obs = Some o ->
  nth_error (out_log o) k = Some e ->
  exists ob,
    nth_error obs k = Some ob /\
    it_remaining e =
      Duration_sub (forceTimeout r) (Sub (now_remaining ob) start) /\
    it_nextTimeout e =
      if chunkTimeout r =? 0 then it_remaining e
      else Z.min (it_remaining e) (chunkTimeout r).
Proof.
  intros HR Hk. apply Read_inv in HR.
  destruct HR as [_|_ _|r1 log _ _ Hl]; simpl in Hk;
    try (destruct k; discriminate).
  destruct (Read_loop_nth _ _ _ _ _ _ Hl k e Hk) as (ob & Hob & Hrem & Hn).
  exists ob. repeat split; try assumption.
  rewrite Hn. apply nextTimeout_of_min.
Qed.

(** ** C3: when the loop stops *)





(** ** C7: both timeouts zero *)

Lemma received_buffer r err r1 :
  received r err r1 ->
  exists got, buffer r1 = buffer r ++ got /\
              (got = [] \/ exists q, queue (dataChan r) = got :: q).
Proof.
  destruct 1 as [|data q Hq|Hq He]; simpl.
  - exists []. rewrite app_nil_r. auto.
  - exists data. eauto.
  - exists []. auto.
Qed.

(** C7.  With both timeouts zero and a monotonic clock, a call of
    [Read] has a result as soon as the script holds one round: the
    loop runs at most one round, in which [remaining <= 0] is the
    timeout of the wait; the bytes returned are the first [len] of the
    buffer, extended by the slice the goroutine was handing over if the
    receive won that single [select]. *)
Theorem Read_zero_timeouts r len start ob obs :
  forceTimeout r = 0 -> chunkTimeout r = 0 -> clock_monotone start ob ->
  exists o got,
    Read r len start (ob :: obs) = Some o /\
    (length (out_log o) <= 1)%nat /\
    Forall (fun e => it_remaining e <= 0 /\
                     it_nextTimeout e = it_remaining e) (out_log o) /\
    out_data o = firstn len (buffer r ++ got) /\
    (got = [] \/ exists q, queue (dataChan r) = got :: q) /\
    (out_err o = ErrNil \/
     (out_err o = io_EOF /\ isEOF r = true /\ buffer r = [])).
Proof.
  intros Hf Hc (H1 & H2 & H3 & H4).
  unfold Read.
  destruct (Nat.leb_spec len (Buffer.Len (buffer r))) as [Hle|Hlt].
  { rewrite Buffer_Read_eq. eexists; exists []. simpl.
    rewrite app_nil_r. repeat split; auto. }
  destruct (isEOF r) eqn:He.
  { rewrite Buffer_Read_eq. eexists; exists []. simpl.
    rewrite app_nil_r. split; [reflexivity|]. simpl.
    repeat split; auto.
    destruct (buffer r) eqn:Hb; [|auto].
    destruct len; [simpl in Hlt; lia|auto]. }
  simpl. apply Nat.ltb_lt in Hlt. rewrite Hlt.
  destruct (Read_round r start ob) as [[c r1] e] eqn:Hr.
  apply Read_round_spec in Hr.
  assert (Hbreak : c = Break).
  { rewrite (rs_control _ _ _ _ _ _ Hr), (rs_elapsed _ _ _ _ _ _ Hr), Hf.
    pose proof (Sub_nonneg (now_force ob) start ltac:(lia)) as Hn.
    apply Z.geb_le in Hn. rewrite Hn, orb_true_r. reflexivity. }
  subst c. rewrite Buffer_Read_eq.
  destruct (received_buffer _ _ _ (rs_received _ _ _ _ _ _ Hr))
    as (got & Hgot & Hq).
  simpl in Hgot.
  eexists; exists got. simpl. split; [reflexivity|].
  repeat split; auto.
  - constructor; [|constructor].
    pose proof (rs_remaining _ _ _ _ _ _ Hr) as Hrem.
    pose proof (rs_nextTimeout _ _ _ _ _ _ Hr) as Hnext.
    unfold nextTimeout_of in Hnext. rewrite Hc in Hnext. simpl in Hnext.
    split; [|exact Hnext].
    rewrite Hrem. unfold remaining_of, Duration_sub. rewrite Hf.
    pose proof (Sub_nonneg (now_remaining ob) start ltac:(lia)).
    pose proof (Sub_range (now_remaining ob) start).
    rewrite wrap64_small; unfold minDuration, maxDuration in *; lia.
  - now rewrite Hgot.
Qed.

(** ** C10: the only error is io.EOF, and it comes alone *)

Lemma Read_error_cases r len start obs o :
  Read r len start obs = Some o ->
  (out_err o = ErrNil \/ out_err o = io_EOF) /\
  (out_err o <> ErrNil ->
   out_err o = io_EOF /\ out_n o = 0%nat /\ buffer r = [] /\
   buffer (out_r o) = [] /\ isEOF r = true /\ out_log o = []) /\
  (out_data o <> [] -> out_err o = ErrNil) /\
  (Exists (fun e => it_setEOF e = true) (out_log o) -> out_err o = ErrNil).
Proof.
  intros HR. apply Read_inv in HR.
  destruct HR as [Hle|Hlt He|r1 log Hlt He Hl]; unfold out_n; simpl.
  - repeat split; auto; congruence.
  - destruct (buffer r) eqn:Hb; simpl.
    + rewrite firstn_nil, skipn_nil. repeat split; auto.
      * congruence.
      * intros H. inversion H.
    + repeat split; auto; congruence.
  - repeat split; auto; congruence.
Qed.

(** C10.  Every error of [Read] is nil or [io.EOF]; a non-nil error
    comes with zero bytes, an empty buffer, [isEOF] already set before
    the call and no round of the loop; bytes never come with an error;
    and the call in which [r.isEOF = true] is executed returns nil. *)
Theorem Read_error_is_EOF r len start obs o :
  Read r len start obs = Some o ->
  (out_err o = ErrNil \/ out_err o = io_EOF) /\
  (out_err o <> ErrNil ->
   out_err o = io_EOF /\ out_n o = 0%nat /\ buffer r = [] /\
   buffer (out_r o) = [] /\ isEOF r = true /\ out_log o = []) /\
  (out_data o <> [] -> out_err o = ErrNil) /\
  (Exists (fun e => it_setEOF e = true) (out_log o) -> out_err o = ErrNil).
Proof. apply Read_error_cases. Qed.

(** ** C6: the producer *)



(** The channel is closed only after an answer with an error. *)
Lemma readInput_Closed bs rd :
  ending (readInput bs rd) = Closed ->
  exists pre res post,
    rd = pre ++ res :: post /\
    Forall (fun x => rr_err x = ErrNil) pre /\ rr_err res <> ErrNil.
Proof.
  induction rd as [|x rd IH]; simpl.
  - destruct (bs <? 0); discriminate.
  - destruct (bs <? 0); [discriminate|].
    destruct (error_eqb (rr_err x) ErrNil) eqn:Ex.
    + destruct (_ <=? _); [|discriminate]. simpl. intros H.
      destruct (IH H) as (pre & res & post & -> & Hpre & Hres).
      exists (x :: pre), res, post. repeat split; auto.
      constructor; [now apply error_eqb_eq|assumption].
    + intros _. exists [], x, rd. repeat split; auto.
      now apply error_eqb_neq.
Qed.

(** What the goroutine sends is what the reader produced without
    error. *)
Lemma readInput_sends bs rd :
  ending (readInput bs rd) <> Panicked ->
  Forall (fun x => rr_err x <> ErrNil -> rr_data x = []) rd ->
  concat (queue (readInput bs rd)) = produced rd.
Proof.
  intros Hp Hrd. induction Hrd as [|x rd Hx _ IH]; simpl in *.
  - now destruct (bs <? 0).
  - destruct (bs <? 0); [simpl in Hp; congruence|].
    destruct (error_eqb (rr_err x) ErrNil) eqn:Ex.
    + destruct (_ <=? _); [|simpl in Hp; congruence]. simpl in *.
      now rewrite IH.
    + simpl. symmetry. apply Hx. now apply error_eqb_neq.
Qed.

(** ** Sequences of calls: nothing lost, nothing repeated *)

Lemma Read_bytes r len start obs o :
  Read r len start obs = Some o ->
  out_data o ++ buffer (out_r o) ++ pending (out_r o)
  = buffer r ++ pending r /\
  ending (dataChan (out_r o)) = ending (dataChan r).
Proof.
  intros HR. apply Read_inv in HR.
  destruct HR as [Hle|Hlt He|r1 log Hlt He Hl]; simpl;
    rewrite app_assoc, firstn_skipn; auto.
  now apply Read_loop_bytes in Hl.
Qed.

Lemma Read_config r len start obs o :
  Read r len start obs = Some o ->
  blockSize (out_r o) = blockSize r /\ reader (out_r o) = reader r /\
  chunkTimeout (out_r o) = chunkTimeout r /\
  forceTimeout (out_r o) = forceTimeout r.
Proof.
  intros HR. apply Read_inv in HR.
  destruct HR as [Hle|Hlt He|r1 log Hlt He Hl]; simpl; auto.
  now apply Read_loop_config in Hl.
Qed.

(** The bytes returned by a sequence of calls, then the buffer, then
    what the goroutine has yet to hand over, are always the same
    sequence of bytes. *)
Lemma run_bytes r calls r' outs :
  run r calls = Some (r', outs) ->
  returned outs ++ buffer r' ++ pending r' = buffer r ++ pending r.
Proof.
  revert r r' outs. induction calls as [|c calls IH]; intros r r' outs; simpl.
  - intros H; injection H as <- <-. reflexivity.
  - destruct (Read r _ _ _) as [o|] eqn:HR; [|discriminate].
    destruct (run (out_r o) calls) as [[r2 outs2]|] eqn:Hrun; [|discriminate].
    intros H; injection H as <- <-.
    apply Read_bytes in HR. destruct HR as [HR _].
    unfold returned in *. simpl. rewrite <- app_assoc, (IH _ _ _ Hrun).
    exact HR.
Qed.

Lemma run_config r calls r' outs :
  run r calls = Some (r', outs) ->
  blockSize r' = blockSize r /\ reader r' = reader r /\
  chunkTimeout r' = chunkTimeout r /\ forceTimeout r' = forceTimeout r.
Proof.
  revert r r' outs. induction calls as [|c calls IH]; intros r r' outs; simpl.
  - intros H; injection H as <- <-. auto.
  - destruct (Read r _ _ _) as [o|] eqn:HR; [|discriminate].
    destruct (run (out_r o) calls) as [[r2 outs2]|] eqn:Hrun; [|discriminate].
    intros H; injection H as <- <-.
    apply Read_config in HR. apply IH in Hrun. intuition congruence.
Qed.

(** ** The end-of-stream flag *)

Lemma round_continue_no_EOF r start o r1 e :
  round_spec r start o Continue r1 e ->
  it_setEOF e = false /\ isEOF r1 = isEOF r.
Proof.
  intros Hr.
  assert (Hno : it_setEOF e = false).
  { destruct (it_setEOF e) eqn:E; [|reflexivity].
    apply (rs_setEOF _ _ _ _ _ _ Hr) in E.
    pose proof (rs_control _ _ _ _ _ _ Hr) as Hctl. rewrite E in Hctl.
    simpl in Hctl. discriminate. }
  split; [exact Hno|].
  rewrite (rs_isEOF _ _ _ _ _ _ Hr), Hno. apply orb_false_r.
Qed.

Lemma received_closed r r1 :
  received r io_EOF r1 ->
  dataChan r1 = dataChan r /\
  queue (dataChan r) = [] /\ ending (dataChan r) = Closed.
Proof. intros H. inversion H; subst; simpl; auto. Qed.

(** [isEOF] goes from false to true only in front of the closed,
    drained channel. *)
Lemma Read_loop_sets_isEOF r len start obs r2 log :
  Read_loop r len start obs = Some (r2, log) ->
  isEOF r = false -> isEOF r2 = true ->
  queue (dataChan r2) = [] /\ ending (dataChan r2) = Closed.
Proof.
  revert obs r r2 log.
  apply (Read_loop_rounds_ind len start
           (fun r obs r2 log =>
              isEOF r = false -> isEOF r2 = true ->
              queue (dataChan r2) = [] /\ ending (dataChan r2) = Closed)).
  - intros r obs _ H1 H2. congruence.
  - intros r o obs r1 e _ Hr H1 H2. apply Read_round_spec in Hr.
    pose proof (rs_isEOF _ _ _ _ _ _ Hr) as Hi.
    rewrite H1, H2 in Hi. simpl in Hi. symmetry in Hi.
    apply (rs_setEOF _ _ _ _ _ _ Hr) in Hi.
    pose proof (rs_received _ _ _ _ _ _ Hr) as Hrcv. rewrite Hi in Hrcv.
    apply received_closed in Hrcv. simpl in Hrcv.
    destruct Hrcv as (-> & Hq & He). auto.
  - intros r o obs r1 e r2 log _ Hr _ IH H1 H2.
    apply Read_round_spec, round_continue_no_EOF in Hr.
    apply IH; [|assumption]. destruct Hr. congruence.
Qed.


Lemma Read_consistent r len start obs o :
  consistent r -> Read r len start obs = Some o -> consistent (out_r o).
Proof.
  intros [Hend Heof] HR.
  pose proof (Read_config _ _ _ _ _ HR) as (Hb & Hrd & _ & _).
  pose proof (Read_bytes _ _ _ _ _ HR) as [_ He].
  unfold consistent. rewrite Hb, Hrd, He. split; [exact Hend|].
  apply Read_inv in HR.
  destruct HR as [Hle|Hlt Hiso|r1 log Hlt Hiso Hl]; simpl in *; auto.
  intros H2. rewrite <- He.
  apply (Read_loop_sets_isEOF _ _ _ _ _ _ Hl Hiso H2).
Qed.

Lemma run_consistent r calls r' outs :
  consistent r -> run r calls = Some (r', outs) -> consistent r'.
Proof.
  revert r r' outs. induction calls as [|c calls IH]; intros r r' outs Hc;
    simpl.
  - intros H; injection H as <- <-. exact Hc.
  - destruct (Read r _ _ _) as [o|] eqn:HR; [|discriminate].
    destruct (run (out_r o) calls) as [[r2 outs2]|] eqn:Hrun; [|discriminate].
    intros H; injection H as <- <-.
    eapply IH; [|exact Hrun]. eapply Read_consistent; eauto.
Qed.

Lemma options_keep rd bs (options : list Option) r0 :
  Forall package_option options ->
  blockSize r0 = bs -> reader r0 = rd -> isEOF r0 = false ->
  exists r,
    fold_left (fun r option => option r) options r0 = r /\
    blockSize r = bs /\ reader r = rd /\ isEOF r = false /\
    buffer r = buffer r0.
Proof.
  intros H. revert r0. induction H as [|op ops [d [-> | ->]] _ IH];
    intros r0 Hb Hr He; simpl.
  - exists r0. auto.
  - destruct (IH (ChunkTimeout d r0) Hb Hr He) as (r & ? & ? & ? & ? & ?).
    exists r. auto.
  - destruct (IH (Timeout d r0) Hb Hr He) as (r & ? & ? & ? & ? & ?).
    exists r. auto.
Qed.

Lemma NewNBReader_consistent rd bs options :
  Forall package_option options ->
  consistent (NewNBReader rd bs options) /\
  blockSize (NewNBReader rd bs options) = bs /\
  reader (NewNBReader rd bs options) = rd /\
  buffer (NewNBReader rd bs options) = [] /\
  dataChan (NewNBReader rd bs options) = readInput bs rd.
Proof.
  intros H. unfold NewNBReader.
  destruct (options_keep rd bs options
              (mkNBReader bs rd (mkChan [] Blocked) [] 0 0 false) H
              eq_refl eq_refl eq_refl) as (r & -> & Hb & Hr & He & Hbuf).
  unfold consistent. simpl. repeat split; auto; congruence.
Qed.

(** ** C2: io.EOF only for an exhausted source and an empty buffer *)

Lemma Read_EOF_exhausted rd bs options calls r outs len start obs o :
  Forall package_option options ->
  run (NewNBReader rd bs options) calls = Some (r, outs) ->
  Read r len start obs = Some o ->
  (out_err o = io_EOF ->
   buffer r = [] /\ isEOF r = true /\
   dataChan r = mkChan [] Closed /\
   exists pre res post,
     rd = pre ++ res :: post /\
     Forall (fun x => rr_err x = ErrNil) pre /\ rr_err res <> ErrNil) /\
  (out_err o <> io_EOF -> out_err o = ErrNil) /\
  (~ (buffer r = [] /\ isEOF r = true) -> out_err o = ErrNil).
Proof.
  intros Hop Hrun HR.
  destruct (NewNBReader_consistent rd bs options Hop)
    as (Hc0 & Hb0 & Hr0 & _ & _).
  pose proof (run_consistent _ _ _ _ Hc0 Hrun) as [Hend Heof].
  pose proof (run_config _ _ _ _ Hrun) as (Hb & Hrd & _ & _).
  rewrite Hb, Hrd, Hb0, Hr0 in Hend.
  destruct (Read_error_cases _ _ _ _ _ HR) as (Hcases & Herr & _ & _).
  assert (Hmain : out_err o = io_EOF -> buffer r = [] /\ isEOF r = true).
  { intros E. destruct Herr as (_ & _ & ? & _ & ? & _); [congruence|auto]. }
  split; [|split].
  - intros E. destruct (Hmain E) as [Hbuf Hiso].
    destruct (Heof Hiso) as [Hq Hcl].
    repeat split; auto.
    + destruct (dataChan r); simpl in *; congruence.
    + apply (readInput_Closed bs). congruence.
  - destruct Hcases; congruence.
  - intros Hn. destruct Hcases as [|E]; [assumption|].
    exfalso. apply Hn. now apply Hmain.
Qed.

(** C2.  On a reader made by [NewNBReader] and used by any sequence of
    calls, [Read] returns [io.EOF] only when the buffer is empty and
    the underlying reader has answered with an error (the goroutine has
    closed the channel and every slice it sent has been taken); in
    every other case the error is nil. *)
Theorem EOF_only_when_exhausted rd bs options calls r outs len start obs o :
  Forall package_option options ->
  run (NewNBReader rd bs options) calls = Some (r, outs) ->
  Read r len start obs = Some o ->
  (out_err o = io_EOF ->
   buffer r = [] /\ isEOF r = true /\
   dataChan r = mkChan [] Closed /\
   exists pre res post,
     rd = pre ++ res :: post /\
     Forall (fun x => rr_err x = ErrNil) pre /\ rr_err res <> ErrNil) /\
  (out_err o <> io_EOF -> out_err o = ErrNil) /\
  (~ (buffer r = [] /\ isEOF r = true) -> out_err o = ErrNil).
Proof. apply Read_EOF_exhausted. Qed.

(** ** C9: the flag is set once and stays *)




(** Without answers that carry bytes together with an error, and within
    the block size, every byte the reader produced is returned, buffered
    or still to be handed over, in order; and once [Read] returns
    [io.EOF] every byte has been returned. *)
Lemma nothing_lost rd bs options calls r outs :
  Forall package_option options ->
  Forall (fun x => rr_err x <> ErrNil -> rr_data x = []) rd ->
  ending (readInput bs rd) <> Panicked ->
  run (NewNBReader rd bs options) calls = Some (r, outs) ->
  returned outs ++ buffer r ++ pending r = produced rd /\
  (forall len start obs o,
      Read r len start obs = Some o -> out_err o = io_EOF ->
      returned outs = produced rd).
Proof.
  intros Hop Hrd Hp Hrun.
  destruct (NewNBReader_consistent rd bs options Hop)
    as (_ & _ & _ & Hbuf & Hch).
  pose proof (run_bytes _ _ _ _ Hrun) as Hb.
  unfold pending at 2 in Hb. rewrite Hbuf, Hch in Hb. simpl in Hb.
  rewrite (readInput_sends bs rd Hp Hrd) in Hb.
  split; [exact Hb|].
  intros len start obs o HR He.
  destruct (Read_EOF_exhausted _ _ _ _ _ _ _ _ _ _ Hop Hrun HR)
    as (H & _).
  destruct (H He) as (Hb0 & _ & Hd & _).
  unfold pending in Hb. rewrite Hb0, Hd in Hb. simpl in Hb.
  now rewrite app_nil_r in Hb.
Qed.

(** ** C1: bytes that come with an error *)

(** C1, at a reader that hands over "ab" together with [io.EOF]: the
    reader produced two bytes, [readInput] sends nothing and closes the
    channel, and the calls of [Read] return no byte before [io.EOF]. *)
Theorem bytes_with_error_are_dropped :
  produced data_with_error = ab /\
  readInput 4 data_with_error = mkChan [] Closed /\
  exists r outs,
    run (NewNBReader data_with_error 4 [Timeout 1000])
        [mkCall 4 0 [mkObs 1 2 false 3 4]; mkCall 4 10 []]
    = Some (r, outs) /\
    map out_data outs = [[]; []] /\
    map out_err outs = [ErrNil; io_EOF] /\
    returned outs = [].
Proof.
  split; [reflexivity|]. split; [reflexivity|].
  eexists; eexists. split; [reflexivity|]. repeat split.
Qed.

(** With that reader no sequence of calls ever returns a byte. *)
Lemma dropped_on_every_run calls r outs :
  run (NewNBReader data_with_error 4 [Timeout 1000]) calls = Some (r, outs) ->
  returned outs = [].
Proof.
  intros H. apply run_bytes in H. simpl in H.
  now apply app_eq_nil in H.
Qed.

(** ** C8: the block size and the threshold of Read *)

(** C8, at block size 2, overall timeout 1000 and a call for 4 bytes:
    after the first round the buffer holds 2 bytes, the block size, and
    the loop still goes into a second wait, bounded by the 999 that
    remain of the timeout, which runs out. *)
Theorem blockSize_is_not_the_threshold :
  exists o e1 e2,
    Read r_one_block 4 0
         [mkObs 0 0 false 1 1; mkObs 1 1 true 1000 1000] = Some o /\
    out_log o = [e1; e2] /\
    Z.of_nat (it_buflen e1) = blockSize r_one_block /\
    it_nextTimeout e2 = 999 /\ it_err e2 = errTimeout /\
    out_data o = ab.
Proof.
  eexists; eexists; eexists. split; [reflexivity|].
  split; [reflexivity|]. repeat split.
Qed.

(** When the caller asks for no more than the block size, a buffer of
    at least [blockSize] bytes is enough for [Read] to return at
    once. *)
Lemma blockSize_enough r len start obs :
  Z.of_nat len <= blockSize r ->
  blockSize r <= Z.of_nat (Buffer.Len (buffer r)) ->
  Read r len start obs =
  Some (mkOut (firstn len (buffer r)) ErrNil
              (set_buffer r (skipn len (buffer r))) []).
Proof. intros H1 H2. apply Read_enough. lia. Qed.

(** ** The scenarios, run *)

(** Block size 4, "ab" then "cd" then exhaustion, a call for 4 bytes
    with a large overall timeout: "abcd" and nil after two rounds; the
    next call sees the closed channel and returns 0 and nil, the third
    returns [io.EOF]. *)
Example run_two_chunks :
  run r_two_chunks calls_two_chunks = Some (r_drained, outs_two_chunks) /\
  map out_data outs_two_chunks = [ab ++ cd; []; []] /\
  map out_err outs_two_chunks = [ErrNil; ErrNil; io_EOF] /\
  map (fun o => length (out_log o)) outs_two_chunks = [2; 1; 0]%nat.
Proof. repeat split. Qed.

Lemma nextTimeout_is_min_witness :
  Read r_two_chunks 4 0 obs_two_chunks = nth_error outs_two_chunks 0 /\
  exists ob,
    nth_error obs_two_chunks 1 = Some ob /\
    999994 =
      Duration_sub (forceTimeout r_two_chunks) (Sub (now_remaining ob) 0) /\
    1000 =
      if chunkTimeout r_two_chunks =? 0 then 999994
      else Z.min 999994 (chunkTimeout r_two_chunks).
Proof.
  split; [reflexivity|].
  apply (nextTimeout_is_min r_two_chunks 4 0 obs_two_chunks
           (nth 0 outs_two_chunks (mkOut [] ErrNil r_drained [])) 1
           (mkLog 999994 1000 ErrNil 3 9 4 false));
    reflexivity.
Defined.


Lemma Read_zero_timeouts_witness :
  exists o got,
    Read (NewNBReader two_chunks 4 []) 4 10
         [mkObs 10 11 false 12 13] = Some o /\
    (length (out_log o) <= 1)%nat /\
    Forall (fun e => it_remaining e <= 0 /\
                     it_nextTimeout e = it_remaining e) (out_log o) /\
    out_data o = firstn 4 (buffer (NewNBReader two_chunks 4 []) ++ got) /\
    (got = [] \/
     exists q, queue (dataChan (NewNBReader two_chunks 4 [])) = got :: q) /\
    (out_err o = ErrNil \/
     (out_err o = io_EOF /\ isEOF (NewNBReader two_chunks 4 []) = true /\
      buffer (NewNBReader two_chunks 4 []) = [])).
Proof.
  apply (Read_zero_timeouts (NewNBReader two_chunks 4 []) 4 10
           (mkObs 10 11 false 12 13) []).
  - reflexivity.
  - reflexivity.
  - unfold clock_monotone. simpl. lia.
Defined.

Lemma EOF_only_when_exhausted_witness :
  run r_two_chunks (firstn 2 calls_two_chunks)
  = Some (r_drained, firstn 2 outs_two_chunks) /\
  Read r_drained 4 30 [] = Some (mkOut [] io_EOF r_drained []) /\
  (io_EOF = io_EOF ->
   buffer r_drained = [] /\ isEOF r_drained = true /\
   dataChan r_drained = mkChan [] Closed /\
   exists pre res post,
     two_chunks = pre ++ res :: post /\
     Forall (fun x => rr_err x = ErrNil) pre /\ rr_err res <> ErrNil) /\
  (io_EOF <> io_EOF -> io_EOF = ErrNil) /\
  (~ (buffer r_drained = [] /\ isEOF r_drained = true) ->
   io_EOF = ErrNil).
Proof.
  split; [reflexivity|]. split; [reflexivity|].
  apply (EOF_only_when_exhausted two_chunks 4
           [Timeout 1000000; ChunkTimeout 1000]
           (firstn 2 calls_two_chunks) r_drained
           (firstn 2 outs_two_chunks) 4 30 []
           (mkOut [] io_EOF r_drained [])).
  - repeat constructor; eexists; eauto.
  - reflexivity.
  - reflexivity.
Defined.

Lemma Read_error_is_EOF_witness :
  Read r_drained 4 30 [] = Some (mkOut [] io_EOF r_drained []) /\
  (io_EOF = ErrNil \/ io_EOF = io_EOF) /\
  (io_EOF <> ErrNil ->
   io_EOF = io_EOF /\ 0%nat = 0%nat /\ buffer r_drained = [] /\
   buffer r_drained = [] /\ isEOF r_drained = true /\
   @nil iterLog = []) /\
  (@nil byte <> [] -> io_EOF = ErrNil) /\
  (Exists (fun e => it_setEOF e = true) [] -> io_EOF = ErrNil).
Proof.
  split; [reflexivity|].
  apply (Read_error_is_EOF r_drained 4 30 []
           (mkOut [] io_EOF r_drained [])).
  reflexivity.
Defined.



(** * Further properties of the package *)

(** ** NewNBReader and its options *)

Lemma NewNBReader_fields rd bs options :
  Forall package_option options ->
  NewNBReader rd bs options =
  mkNBReader bs rd (readInput bs rd) []
             (chunkTimeout (NewNBReader rd bs options))
             (forceTimeout (NewNBReader rd bs options)) false.
Proof.
  intros H. unfold NewNBReader.
  destruct (options_keep rd bs options
              (mkNBReader bs rd (mkChan [] Blocked) [] 0 0 false) H
              eq_refl eq_refl eq_refl) as (r & Hfold & Hb & Hr & He & Hbuf).
  rewrite Hfold. destruct r; simpl in *. subst. reflexivity.
Qed.

(** X1.  Without options both timeouts are zero; an option given last sets
    its own timeout and leaves the other one, the block size, the empty
    buffer, the flag and the goroutine's channel as they are. *)
Theorem options_compose rd bs options d :
  Forall package_option options ->
  NewNBReader rd bs [] = mkNBReader bs rd (readInput bs rd) [] 0 0 false /\
  NewNBReader rd bs (options ++ [Timeout d]) =
    mkNBReader bs rd (readInput bs rd) []
               (chunkTimeout (NewNBReader rd bs options)) d false /\
  NewNBReader rd bs (options ++ [ChunkTimeout d]) =
    mkNBReader bs rd (readInput bs rd) []
               d (forceTimeout (NewNBReader rd bs options)) false.
Proof.
  intros H. split; [reflexivity|].
  unfold NewNBReader. rewrite !fold_left_app.
  destruct (options_keep rd bs options
              (mkNBReader bs rd (mkChan [] Blocked) [] 0 0 false) H
              eq_refl eq_refl eq_refl) as (r & Hfold & Hb & Hr & He & Hbuf).
  cbv zeta. simpl fold_left. unfold Option in *. rewrite !Hfold.
  destruct r; simpl in *. subst. split; reflexivity.
Qed.

Lemma options_compose_witness :
  NewNBReader two_chunks 4 [] =
    mkNBReader 4 two_chunks (readInput 4 two_chunks) [] 0 0 false /\
  NewNBReader two_chunks 4 ([Timeout 5; ChunkTimeout 3] ++ [Timeout 9]) =
    mkNBReader 4 two_chunks (readInput 4 two_chunks) [] 3 9 false /\
  NewNBReader two_chunks 4 ([Timeout 5; ChunkTimeout 3] ++ [ChunkTimeout 9]) =
    mkNBReader 4 two_chunks (readInput 4 two_chunks) [] 9 5 false.
Proof.
  apply (options_compose two_chunks 4 [Timeout 5; ChunkTimeout 3] 9).
  repeat constructor; eexists; eauto.
Defined.

(** ** readInput: what reaches the channel *)

Lemma readInput_bounded bs rd :
  Forall (fun c => Z.of_nat (length c) <= bs) (queue (readInput bs rd)).
Proof.
  induction rd as [|x rd IH]; simpl.
  - destruct (bs <? 0); constructor.
  - destruct (bs <? 0); [constructor|].
    destruct (error_eqb (rr_err x) ErrNil); [|constructor].
    destruct (Z.leb_spec (Z.of_nat (length (rr_data x))) bs);
      simpl; constructor; assumption.
Qed.

Lemma readInput_prefix bs rd :
  exists tail, produced rd = concat (queue (readInput bs rd)) ++ tail.
Proof.
  induction rd as [|x rd [tail IH]]; simpl.
  - exists []. now destruct (bs <? 0).
  - destruct (bs <? 0); [eexists; reflexivity|].
    destruct (error_eqb (rr_err x) ErrNil); [|eexists; reflexivity].
    destruct (_ <=? _); simpl; [|eexists; reflexivity].
    exists tail. now rewrite IH, app_assoc.
Qed.

(** X2.  Whatever the underlying reader does, every slice [readInput] sends
    is at most [blockSize] long, and the bytes sent are, in order, a
    prefix of the bytes the reader produced: nothing is sent twice,
    nothing out of order. *)
Theorem readInput_sends_prefix bs rd :
  Forall (fun c => Z.of_nat (length c) <= bs) (queue (readInput bs rd)) /\
  exists tail, produced rd = concat (queue (readInput bs rd)) ++ tail.
Proof. split; [apply readInput_bounded | apply readInput_prefix]. Qed.

(** ** Read: oldest bytes first, short reads *)

Lemma received_got r err r1 :
  received r err r1 ->
  exists got, buffer r1 = buffer r ++ got /\ pending r = got ++ pending r1.
Proof.
  destruct 1 as [|data q Hq|Hq He]; unfold pending; simpl.
  - exists []. now rewrite app_nil_r.
  - exists data. now rewrite Hq.
  - exists []. auto.
Qed.

Lemma Read_loop_got r len start obs r2 log :
  Read_loop r len start obs = Some (r2, log) ->
  exists got, buffer r2 = buffer r ++ got /\ pending r = got ++ pending r2.
Proof.
  revert obs r r2 log.
  apply (Read_loop_rounds_ind len start
           (fun r obs r2 log =>
              exists got, buffer r2 = buffer r ++ got /\
                          pending r = got ++ pending r2)).
  - intros r obs _. exists []. now rewrite app_nil_r.
  - intros r o obs r1 e _ Hr. apply Read_round_spec in Hr.
    apply (received_got _ _ _ (rs_received _ _ _ _ _ _ Hr)).
  - intros r o obs r1 e r2 log _ Hr _ (got2 & Hb2 & Hp2).
    apply Read_round_spec in Hr.
    destruct (received_got _ _ _ (rs_received _ _ _ _ _ _ Hr))
      as (got1 & Hb1 & Hp1).
    simpl in Hb1. unfold pending in Hp1 at 2. simpl in Hp1.
    fold (pending r1) in Hp1.
    exists (got1 ++ got2). rewrite Hb2, Hb1, Hp1, Hp2.
    now rewrite !app_assoc.
Qed.

(** X3.  [Read] never returns more than [len] bytes; a call that returns
    fewer leaves the buffer empty; and the bytes returned followed by
    the bytes kept are the old buffer followed by the bytes taken from
    the channel during the call, which are the first of those that were
    on their way. *)
Theorem Read_oldest_first r len start obs o :
  Read r len start obs = Some o ->
  (out_n o <= len)%nat /\
  ((out_n o < len)%nat -> buffer (out_r o) = []) /\
  exists got,
    out_data o ++ buffer (out_r o) = buffer r ++ got /\
    pending r = got ++ pending (out_r o).
Proof.
  intros HR. apply Read_inv in HR.
  assert (Hshort : forall b : list byte,
             (length (firstn len b) <= len)%nat /\
             ((length (firstn len b) < len)%nat -> skipn len b = [])).
  { intros b. rewrite length_firstn. split; [lia|].
    intros H. apply skipn_all2. lia. }
  destruct HR as [Hle|Hlt He|r1 log Hlt He Hl]; unfold out_n; simpl;
    rewrite firstn_skipn.
  - destruct (Hshort (buffer r)). repeat split; auto.
    exists []. now rewrite app_nil_r.
  - destruct (Hshort (buffer r)). repeat split; auto.
    exists []. now rewrite app_nil_r.
  - destruct (Hshort (buffer r1)). repeat split; auto.
    destruct (Read_loop_got _ _ _ _ _ _ Hl) as (got & Hb & Hp).
    exists got. unfold pending in *. simpl. auto.
Qed.

Lemma Read_oldest_first_witness :
  let o := nth 0 outs_two_chunks (mkOut [] ErrNil r_drained []) in
  Read r_two_chunks 4 0 obs_two_chunks = Some o /\
  (out_n o <= 4)%nat /\
  ((out_n o < 4)%nat -> buffer (out_r o) = []) /\
  exists got,
    out_data o ++ buffer (out_r o) = buffer r_two_chunks ++ got /\
    pending r_two_chunks = got ++ pending (out_r o).
Proof.
  intros o. split; [reflexivity|].
  apply (Read_oldest_first r_two_chunks 4 0 obs_two_chunks o). reflexivity.
Defined.

(** ** Read: exactly when io.EOF is returned *)

(** X4.  [Read] returns [io.EOF] exactly when the flag is set, the buffer is
    empty and the caller asked for at least one byte. *)
Theorem Read_EOF_iff r len start obs o :
  Read r len start obs = Some o ->
  (out_err o = io_EOF <->
   isEOF r = true /\ buffer r = [] /\ (0 < len)%nat).
Proof.
  intros HR. apply Read_inv in HR.
  destruct HR as [Hle|Hlt He|r1 log Hlt He Hl]; simpl.
  - split; [discriminate|]. intros (_ & Hb & Hl). rewrite Hb in Hle.
    simpl in Hle. lia.
  - destruct (buffer r) eqn:Hb; simpl in *.
    + split; [intros _; repeat split; auto; lia | reflexivity].
    + split; [discriminate|]. intros (_ & H & _). discriminate.
  - split; [discriminate|]. intros (H & _). congruence.
Qed.

Lemma Read_EOF_iff_witness :
  Read r_drained 4 30 [] = Some (mkOut [] io_EOF r_drained []) /\
  (io_EOF = io_EOF <->
   isEOF r_drained = true /\ buffer r_drained = [] /\ (0 < 4)%nat).
Proof.
  split; [reflexivity|].
  apply (Read_EOF_iff r_drained 4 30 [] (mkOut [] io_EOF r_drained [])).
  reflexivity.
Defined.

(** ** After end-of-stream has been observed *)

Lemma received_closed_buffer r r1 :
  received r io_EOF r1 -> buffer r1 = buffer r.
Proof. intros H. inversion H; subst; simpl. apply app_nil_r. Qed.

(** The round that sets [isEOF] leaves fewer than [len] bytes in the
    buffer. *)
Lemma Read_loop_eof_short r len start obs r2 log :
  Read_loop r len start obs = Some (r2, log) ->
  isEOF r = false -> isEOF r2 = true ->
  (Buffer.Len (buffer r2) < len)%nat.
Proof.
  revert obs r r2 log.
  apply (Read_loop_rounds_ind len start
           (fun r obs r2 log =>
              isEOF r = false -> isEOF r2 = true ->
              (Buffer.Len (buffer r2) < len)%nat)).
  - intros r obs _ H1 H2. congruence.
  - intros r o obs r1 e Hlt Hr H1 H2. apply Read_round_spec in Hr.
    pose proof (rs_isEOF _ _ _ _ _ _ Hr) as Hi.
    rewrite H1, H2 in Hi. simpl in Hi. symmetry in Hi.
    apply (rs_setEOF _ _ _ _ _ _ Hr) in Hi.
    pose proof (rs_received _ _ _ _ _ _ Hr) as Hrcv. rewrite Hi in Hrcv.
    apply received_closed_buffer in Hrcv. simpl in Hrcv. now rewrite Hrcv.
  - intros r o obs r1 e r2 log _ Hr _ IH H1 H2.
    apply Read_round_spec, round_continue_no_EOF in Hr.
    apply IH; [|assumption]. destruct Hr. congruence.
Qed.

Lemma Read_eof_drained r len start obs o :
  (isEOF r = true -> buffer r = []) ->
  Read r len start obs = Some o ->
  isEOF (out_r o) = true -> buffer (out_r o) = [].
Proof.
  intros Hinv HR. apply Read_inv in HR.
  destruct HR as [Hle|Hlt He|r1 log Hlt He Hl]; simpl.
  - intros H. rewrite (Hinv H). apply skipn_nil.
  - intros H. rewrite (Hinv H). apply skipn_nil.
  - intros H. apply skipn_all2.
    pose proof (Read_loop_eof_short _ _ _ _ _ _ Hl He H). unfold Buffer.Len in *.
    lia.
Qed.

Lemma run_eof_drained r calls r' outs :
  (isEOF r = true -> buffer r = []) ->
  run r calls = Some (r', outs) ->
  isEOF r' = true -> buffer r' = [].
Proof.
  revert r r' outs. induction calls as [|c calls IH]; intros r r' outs Hinv;
    simpl.
  - intros H; injection H as <- <-. exact Hinv.
  - destruct (Read r _ _ _) as [o|] eqn:HR; [|discriminate].
    destruct (run (out_r o) calls) as [[r2 outs2]|] eqn:Hrun; [|discriminate].
    intros H; injection H as <- <-.
    eapply IH; [|exact Hrun]. eapply Read_eof_drained; eauto.
Qed.

(** X5.  On a reader made by [NewNBReader], once a call has seen the closed
    channel the buffer is empty for good: the call that sets the flag
    hands out everything that was buffered, and from then on every call
    for at least one byte returns 0 bytes and [io.EOF] at once, on
    every script, leaving the reader as it is. *)
Theorem EOF_is_final rd bs options calls r outs :
  Forall package_option options ->
  run (NewNBReader rd bs options) calls = Some (r, outs) ->
  isEOF r = true ->
  buffer r = [] /\
  forall len start obs,
    (0 < len)%nat -> Read r len start obs = Some (mkOut [] io_EOF r []).
Proof.
  intros Hop Hrun He.
  assert (Hbuf : buffer r = []).
  { eapply run_eof_drained; [|exact Hrun|exact He].
    rewrite (NewNBReader_fields rd bs options Hop). discriminate. }
  split; [exact Hbuf|].
  intros len start obs Hlen. unfold Read. rewrite He, Hbuf. simpl.
  destruct len; [lia|]. simpl. destruct r; simpl in *. now subst.
Qed.

Lemma EOF_is_final_witness :
  run r_two_chunks (firstn 2 calls_two_chunks)
  = Some (r_drained, firstn 2 outs_two_chunks) /\
  buffer r_drained = [] /\
  forall len start obs,
    (0 < len)%nat ->
    Read r_drained len start obs = Some (mkOut [] io_EOF r_drained []).
Proof.
  split; [reflexivity|].
  apply (EOF_is_final two_chunks 4 [Timeout 1000000; ChunkTimeout 1000]
           (firstn 2 calls_two_chunks) r_drained (firstn 2 outs_two_chunks)).
  - repeat constructor; eexists; eauto.
  - reflexivity.
  - reflexivity.
Defined.

(** ** How much the buffer can hold *)

Lemma received_buflen (B : Z) r err r1 :
  0 <= B ->
  Forall (fun c => Z.of_nat (length c) <= B) (queue (dataChan r)) ->
  received r err r1 ->
  Forall (fun c => Z.of_nat (length c) <= B) (queue (dataChan r1)) /\
  Z.of_nat (Buffer.Len (buffer r1)) <= Z.of_nat (Buffer.Len (buffer r)) + B.
Proof.
  intros HB Hq H. destruct H as [|data q Hd|Hd He]; simpl;
    unfold Buffer.Len in *.
  - split; [assumption|lia].
  - rewrite Hd in Hq. inversion Hq; subst. split; [assumption|].
    rewrite length_app. lia.
  - split; [assumption|]. rewrite app_nil_r. lia.
Qed.

Lemma Read_loop_buflen (B : Z) r len start obs r2 log :
  0 <= B ->
  Read_loop r len start obs = Some (r2, log) ->
  Forall (fun c => Z.of_nat (length c) <= B) (queue (dataChan r)) ->
  Forall (fun c => Z.of_nat (length c) <= B) (queue (dataChan r2)) /\
  Z.of_nat (Buffer.Len (buffer r2))
  <= Z.max (Z.of_nat (Buffer.Len (buffer r))) (Z.of_nat len - 1 + B) /\
  Forall (fun e => Z.of_nat (it_buflen e) < Z.of_nat len + B) log.
Proof.
  intros HB. revert obs r r2 log.
  apply (Read_loop_rounds_ind len start
           (fun r obs r2 log =>
              Forall (fun c => Z.of_nat (length c) <= B)
                     (queue (dataChan r)) ->
              Forall (fun c => Z.of_nat (length c) <= B)
                     (queue (dataChan r2)) /\
              Z.of_nat (Buffer.Len (buffer r2))
              <= Z.max (Z.of_nat (Buffer.Len (buffer r)))
                       (Z.of_nat len - 1 + B) /\
              Forall (fun e => Z.of_nat (it_buflen e) < Z.of_nat len + B)
                     log)).
  - intros r obs _ Hq. repeat split; [assumption|lia|constructor].
  - intros r o obs r1 e Hlt Hr Hq. apply Read_round_spec in Hr.
    destruct (received_buflen B _ _ _ HB Hq (rs_received _ _ _ _ _ _ Hr))
      as [Hq1 Hl1].
    simpl in Hq1, Hl1.
    repeat split; [assumption|lia|].
    constructor; [|constructor]. rewrite (rs_buflen _ _ _ _ _ _ Hr). lia.
  - intros r o obs r1 e r2 log Hlt Hr _ IH Hq. apply Read_round_spec in Hr.
    destruct (received_buflen B _ _ _ HB Hq (rs_received _ _ _ _ _ _ Hr))
      as [Hq1 Hl1].
    simpl in Hq1, Hl1. destruct (IH Hq1) as (Hq2 & Hl2 & Hlog).
    repeat split; [assumption|lia|].
    constructor; [|assumption]. rewrite (rs_buflen _ _ _ _ _ _ Hr). lia.
Qed.

Lemma Read_buffer_bound (B : Z) r len start obs o :
  0 <= B ->
  Forall (fun c => Z.of_nat (length c) <= B) (queue (dataChan r)) ->
  (buffer r = [] \/ Z.of_nat (Buffer.Len (buffer r)) < B) ->
  Read r len start obs = Some o ->
  Forall (fun c => Z.of_nat (length c) <= B) (queue (dataChan (out_r o))) /\
  (buffer (out_r o) = [] \/ Z.of_nat (Buffer.Len (buffer (out_r o))) < B) /\
  Forall (fun e => Z.of_nat (it_buflen e) < Z.of_nat len + B) (out_log o).
Proof.
  intros HB Hq Hb HR. apply Read_inv in HR.
  assert (Hskip : forall b : list byte,
             Z.of_nat (length b) <= Z.of_nat len - 1 + B ->
             skipn len b = [] \/ Z.of_nat (Buffer.Len (skipn len b)) < B).
  { intros b Hlen. unfold Buffer.Len. rewrite length_skipn.
    destruct (Nat.leb_spec (length b) len) as [H|H].
    - left. now apply skipn_all2.
    - right. lia. }
  destruct HR as [Hle|Hlt He|r1 log Hlt He Hl]; simpl.
  - repeat split; [assumption| |constructor].
    destruct Hb as [->|Hb]; [left; apply skipn_nil|].
    unfold Buffer.Len in *. destruct (Hskip (buffer r)); auto. lia.
  - repeat split; [assumption| |constructor].
    left. apply skipn_all2. unfold Buffer.Len in *. lia.
  - destruct (Read_loop_buflen B _ _ _ _ _ _ HB Hl Hq) as (Hq2 & Hl2 & Hlog).
    repeat split; [assumption| |assumption].
    apply Hskip. unfold Buffer.Len in *. lia.
Qed.

Lemma run_buffer_bound (B : Z) r calls r' outs :
  0 <= B ->
  Forall (fun c => Z.of_nat (length c) <= B) (queue (dataChan r)) ->
  (buffer r = [] \/ Z.of_nat (Buffer.Len (buffer r)) < B) ->
  run r calls = Some (r', outs) ->
  Forall (fun c => Z.of_nat (length c) <= B) (queue (dataChan r')) /\
  (buffer r' = [] \/ Z.of_nat (Buffer.Len (buffer r')) < B).
Proof.
  intros HB. revert r r' outs.
  induction calls as [|c calls IH]; intros r r' outs Hq Hb; simpl.
  - intros H; injection H as <- <-. auto.
  - destruct (Read r _ _ _) as [o|] eqn:HR; [|discriminate].
    destruct (run (out_r o) calls) as [[r2 outs2]|] eqn:Hrun; [|discriminate].
    intros H; injection H as <- <-.
    destruct (Read_buffer_bound B _ _ _ _ _ HB Hq Hb HR) as (Hq1 & Hb1 & _).
    eapply IH; eauto.
Qed.

(** X6.  On a reader made by [NewNBReader] with a block size of at least 0,
    the buffer left between two calls is empty or shorter than the
    block size, and during a call for [len] bytes it never holds
    [len + blockSize] bytes or more. *)
Theorem buffer_is_bounded rd bs options calls r outs len start obs o :
  0 <= bs ->
  Forall package_option options ->
  run (NewNBReader rd bs options) calls = Some (r, outs) ->
  Read r len start obs = Some o ->
  (buffer r = [] \/ Z.of_nat (Buffer.Len (buffer r)) < bs) /\
  (buffer (out_r o) = [] \/ Z.of_nat (Buffer.Len (buffer (out_r o))) < bs) /\
  Forall (fun e => Z.of_nat (it_buflen e) < Z.of_nat len + bs) (out_log o).
Proof.
  intros Hbs Hop Hrun HR.
  assert (H0 : Forall (fun c => Z.of_nat (length c) <= bs)
                      (queue (dataChan (NewNBReader rd bs options))) /\
               buffer (NewNBReader rd bs options) = []).
  { rewrite (NewNBReader_fields rd bs options Hop). simpl.
    split; [apply readInput_bounded|reflexivity]. }
  destruct H0 as [Hq0 Hb0].
  destruct (run_buffer_bound bs _ _ _ _ Hbs Hq0 (or_introl Hb0) Hrun)
    as [Hq Hb].
  destruct (Read_buffer_bound bs _ _ _ _ _ Hbs Hq Hb HR) as (_ & Hb1 & Hlog).
  auto.
Qed.

Lemma buffer_is_bounded_witness :
  let o := nth 0 outs_two_chunks (mkOut [] ErrNil r_drained []) in
  Read r_two_chunks 4 0 obs_two_chunks = Some o /\
  (buffer r_two_chunks = [] \/
   Z.of_nat (Buffer.Len (buffer r_two_chunks)) < 4) /\
  (buffer (out_r o) = [] \/ Z.of_nat (Buffer.Len (buffer (out_r o))) < 4) /\
  Forall (fun e => Z.of_nat (it_buflen e) < Z.of_nat 4 + 4) (out_log o).
Proof.
  intros o. split; [reflexivity|].
  apply (buffer_is_bounded two_chunks 4 [Timeout 1000000; ChunkTimeout 1000]
           [] r_two_chunks [] 4%nat 0 obs_two_chunks o).
  - lia.
  - repeat constructor; eexists; eauto.
  - reflexivity.
  - reflexivity.
Defined.

(** ** A full read *)

Lemma Read_round_receives r start o data q :
  timer_first o = false -> queue (dataChan r) = data :: q ->
  Sub (now_force o) start < forceTimeout r ->
  exists e,
    Read_round r start o =
    (Continue,
     set_buffer (set_dataChan r (mkChan q (ending (dataChan r))))
                (buffer r ++ data), e).
Proof.
  intros Ht Hq Hf. unfold Read_round, readWithTimeout. rewrite Ht, Hq.
  simpl. apply Z.lt_nge in Hf.
  destruct (Z.geb_spec (Sub (now_force o) start) (forceTimeout r));
    [contradiction|].
  eexists. reflexivity.
Qed.

Lemma Read_loop_fills r len start obs :
  Forall (fun o => timer_first o = false /\
                   Sub (now_force o) start < forceTimeout r) obs ->
  (len <= Buffer.Len (buffer r) + length (pending r))%nat ->
  (length (queue (dataChan r)) <= length obs)%nat ->
  exists r2 log,
    Read_loop r len start obs = Some (r2, log) /\
    (len <= Buffer.Len (buffer r2))%nat /\
    buffer r2 ++ pending r2 = buffer r ++ pending r.
Proof.
  intros Hobs. revert r Hobs.
  induction obs as [|o obs IH]; intros r Hobs Hlen Hq; simpl;
    destruct (Nat.ltb_spec (Buffer.Len (buffer r)) len) as [Hlt|Hge];
    try (exists r, []; repeat split; [assumption]).
  - exfalso. destruct (queue (dataChan r)) eqn:E; simpl in Hq; [|lia].
    unfold pending in Hlen. rewrite E in Hlen. simpl in Hlen. lia.
  - inversion Hobs as [|? ? [Ht Hf] Hobs']; subst.
    destruct (queue (dataChan r)) as [|data q] eqn:E.
    { exfalso. unfold pending in Hlen. rewrite E in Hlen. simpl in Hlen. lia. }
    destruct (Read_round_receives r start o data q Ht E Hf) as [e ->].
    set (r1 := set_buffer (set_dataChan r (mkChan q (ending (dataChan r))))
                          (buffer r ++ data)).
    assert (Hbytes : buffer r1 ++ pending r1 = buffer r ++ pending r).
    { unfold pending. simpl. rewrite E. simpl. now rewrite app_assoc. }
    destruct (IH r1) as (r2 & log & Hl & Hfull & Hb).
    + exact Hobs'.
    + apply (f_equal (@length byte)) in Hbytes. rewrite !length_app in Hbytes.
      unfold Buffer.Len in *. lia.
    + simpl in *. lia.
    + rewrite Hl. exists r2, (e :: log). repeat split; auto. congruence.
Qed.

(** X7.  When the bytes buffered and on their way are at least [len], the
    receive wins every [select] and the overall timeout is not reached,
    a script with one round per slice on its way is enough for [Read]
    to return exactly the next [len] bytes, with a nil error. *)
Theorem Read_full r len start obs :
  isEOF r = false ->
  Forall (fun o => timer_first o = false /\
                   Sub (now_force o) start < forceTimeout r) obs ->
  (len <= Buffer.Len (buffer r) + length (pending r))%nat ->
  (length (queue (dataChan r)) <= length obs)%nat ->
  exists o,
    Read r len start obs = Some o /\
    out_data o = firstn len (buffer r ++ pending r) /\
    out_n o = len /\ out_err o = ErrNil.
Proof.
  intros He Hobs Hlen Hq.
  assert (Hfirst : forall b p : list byte,
             (len <= length b)%nat ->
             firstn len b = firstn len (b ++ p) /\
             length (firstn len b) = len).
  { intros b p Hb. rewrite firstn_app.
    replace (len - length b)%nat with 0%nat by lia.
    rewrite firstn_O, app_nil_r. split; [reflexivity|].
    now apply firstn_length_le. }
  unfold Read. rewrite He.
  destruct (Nat.leb_spec len (Buffer.Len (buffer r))) as [Hle|Hlt].
  - rewrite Buffer_Read_eq. eexists. split; [reflexivity|].
    unfold out_n. simpl. destruct (Hfirst (buffer r) (pending r) Hle).
    auto.
  - destruct (Read_loop_fills r len start obs Hobs Hlen Hq)
      as (r2 & log & -> & Hfull & Hb).
    rewrite Buffer_Read_eq. eexists. split; [reflexivity|].
    unfold out_n. simpl. rewrite <- Hb.
    destruct (Hfirst (buffer r2) (pending r2) Hfull). auto.
Qed.

Lemma Read_full_witness :
  exists o,
    Read r_two_chunks 4 0 obs_two_chunks = Some o /\
    out_data o = firstn 4 (buffer r_two_chunks ++ pending r_two_chunks) /\
    out_n o = 4%nat /\ out_err o = ErrNil.
Proof.
  apply (Read_full r_two_chunks 4 0 obs_two_chunks).
  - reflexivity.
  - repeat constructor.
  - simpl. lia.
  - simpl. lia.
Defined.

(** ** The overall timeout bounds the call *)

Lemma Read_loop_deadline r len start obs k ob :
  nth_error obs k = Some ob ->
  forceTimeout r <= Sub (now_force ob) start ->
  exists r2 log,
    Read_loop r len start obs = Some (r2, log) /\ (length log <= S k)%nat.
Proof.
  revert r k. induction obs as [|o obs IH]; intros r k Hk Hf.
  - destruct k; discriminate.
  - simpl. destruct (_ <? _)%nat; [|exists r, []; split; [reflexivity|simpl; lia]].
    destruct (Read_round r start o) as [[c r1] e] eqn:Hr.
    destruct c; [exists r1, [e]; split; [reflexivity|simpl; lia]|].
    pose proof (Read_round_config _ _ _ _ _ _ Hr) as (_ & _ & _ & Hft).
    apply Read_round_spec in Hr.
    destruct k as [|k]; simpl in Hk.
    + exfalso. injection Hk as ->.
      pose proof (rs_control _ _ _ _ _ _ Hr) as Hc.
      rewrite (rs_elapsed _ _ _ _ _ _ Hr) in Hc.
      apply Z.geb_le in Hf. rewrite Hf, orb_true_r in Hc. discriminate.
    + rewrite <- Hft in Hf.
      destruct (IH r1 k Hk Hf) as (r2 & log & -> & Hlen).
      exists r2, (e :: log). split; [reflexivity|simpl; lia].
Qed.

(** X8.  If the clock read at the end of round [k] of the script is at least
    the overall timeout past the start of the call, [Read] has a result
    and has run at most [k + 1] rounds: no script keeps a call waiting
    beyond the round in which the overall timeout runs out. *)
Theorem Read_returns_by_deadline r len start obs k ob :
  nth_error obs k = Some ob ->
  forceTimeout r <= Sub (now_force ob) start ->
  exists o,
    Read r len start obs = Some o /\ (length (out_log o) <= S k)%nat.
Proof.
  intros Hk Hf. unfold Read.
  destruct (_ <=? _)%nat;
    [rewrite Buffer_Read_eq; eexists; split; [reflexivity|simpl; lia]|].
  destruct (isEOF r);
    [rewrite Buffer_Read_eq; eexists; split; [reflexivity|simpl; lia]|].
  destruct (Read_loop_deadline r len start obs k ob Hk Hf)
    as (r2 & log & -> & Hlen).
  rewrite Buffer_Read_eq. eexists. split; [reflexivity|exact Hlen].
Qed.

Lemma Read_returns_by_deadline_witness :
  exists o,
    Read r_one_block 4 0
         [mkObs 0 0 false 1 1; mkObs 1 1 true 1000 1000] = Some o /\
    (length (out_log o) <= 2)%nat.
Proof.
  apply (Read_returns_by_deadline r_one_block 4 0
           [mkObs 0 0 false 1 1; mkObs 1 1 true 1000 1000] 1
           (mkObs 1 1 true 1000 1000)).
  - reflexivity.
  - vm_compute. discriminate.
Defined.

(** ** A chunk timeout without an overall timeout *)

(** X9.  With the overall timeout left at zero and a monotonic clock, a
    chunk timeout of zero or more changes nothing: a call has a result
    as soon as the script holds one round, runs at most one round, and
    the timeout of its wait is not positive. *)
Theorem chunk_timeout_alone r len start ob obs :
  forceTimeout r = 0 -> 0 <= chunkTimeout r -> clock_monotone start ob ->
  exists o,
    Read r len start (ob :: obs) = Some o /\
    (length (out_log o) <= 1)%nat /\
    Forall (fun e => it_nextTimeout e <= 0) (out_log o).
Proof.
  intros Hf Hc (H1 & H2 & H3 & H4). unfold Read.
  destruct (_ <=? _)%nat;
    [rewrite Buffer_Read_eq; eexists; split; [reflexivity|simpl; auto]|].
  destruct (isEOF r);
    [rewrite Buffer_Read_eq; eexists; split; [reflexivity|simpl; auto]|].
  simpl. destruct (_ <? _)%nat;
    [|rewrite Buffer_Read_eq; eexists; split; [reflexivity|simpl; auto]].
  destruct (Read_round r start ob) as [[c r1] e] eqn:Hr.
  apply Read_round_spec in Hr.
  assert (Hbreak : c = Break).
  { rewrite (rs_control _ _ _ _ _ _ Hr), (rs_elapsed _ _ _ _ _ _ Hr), Hf.
    pose proof (Sub_nonneg (now_force ob) start ltac:(lia)) as Hn.
    apply Z.geb_le in Hn. rewrite Hn, orb_true_r. reflexivity. }
  subst c. rewrite Buffer_Read_eq. eexists. split; [reflexivity|]. simpl.
  split; [lia|]. constructor; [|constructor].
  rewrite (rs_nextTimeout _ _ _ _ _ _ Hr), nextTimeout_of_min.
  assert (Hr0 : it_remaining e <= 0).
  { rewrite (rs_remaining _ _ _ _ _ _ Hr).
    unfold remaining_of, Duration_sub. rewrite Hf.
    pose proof (Sub_nonneg (now_remaining ob) start ltac:(lia)).
    pose proof (Sub_range (now_remaining ob) start).
    rewrite wrap64_small; unfold minDuration, maxDuration in *; lia. }
  destruct (chunkTimeout r =? 0); lia.
Qed.

Lemma chunk_timeout_alone_witness :
  exists o,
    Read (NewNBReader two_chunks 4 [ChunkTimeout 1000]) 4 10
         [mkObs 10 11 false 12 13] = Some o /\
    (length (out_log o) <= 1)%nat /\
    Forall (fun e => it_nextTimeout e <= 0) (out_log o).
Proof.
  apply (chunk_timeout_alone (NewNBReader two_chunks 4 [ChunkTimeout 1000])
           4 10 (mkObs 10 11 false 12 13) []).
  - reflexivity.
  - simpl. lia.
  - unfold clock_monotone. simpl. lia.
Defined.

(** ** What calls conserve *)

(** X10.  From any state and over any sequence of calls, the bytes returned,
    followed by the buffer, followed by the slices still to be handed
    over, are the bytes that were buffered and to be handed over at the
    beginning: calls of [Read] lose, repeat and reorder nothing. *)
Theorem calls_conserve_bytes r calls r' outs :
  run r calls = Some (r', outs) ->
  returned outs ++ buffer r' ++ pending r' = buffer r ++ pending r /\
  ending (dataChan r') = ending (dataChan r).
Proof.
  intros H. split; [now apply (run_bytes r calls)|].
  revert r r' outs H. induction calls as [|c calls IH]; intros r r' outs;
    simpl.
  - intros H; injection H as <- <-. reflexivity.
  - destruct (Read r _ _ _) as [o|] eqn:HR; [|discriminate].
    destruct (run (out_r o) calls) as [[r2 outs2]|] eqn:Hrun; [|discriminate].
    intros H; injection H as <- <-.
    apply Read_bytes in HR. rewrite (IH _ _ _ Hrun). apply HR.
Qed.

Lemma calls_conserve_bytes_witness :
  run r_two_chunks calls_two_chunks = Some (r_drained, outs_two_chunks) /\
  returned outs_two_chunks ++ buffer r_drained ++ pending r_drained
  = buffer r_two_chunks ++ pending r_two_chunks /\
  ending (dataChan r_drained) = ending (dataChan r_two_chunks).
Proof.
  split; [reflexivity|].
  apply (calls_conserve_bytes r_two_chunks calls_two_chunks r_drained
           outs_two_chunks).
  reflexivity.
Defined.

(** X11.  No call changes the block size, the underlying reader or either
    timeout. *)
Theorem configuration_is_fixed r calls r' outs :
  run r calls = Some (r', outs) ->
  blockSize r' = blockSize r /\ reader r' = reader r /\
  chunkTimeout r' = chunkTimeout r /\ forceTimeout r' = forceTimeout r.
Proof. apply run_config. Qed.

Lemma configuration_is_fixed_witness :
  run r_two_chunks calls_two_chunks = Some (r_drained, outs_two_chunks) /\
  blockSize r_drained = blockSize r_two_chunks /\
  reader r_drained = reader r_two_chunks /\
  chunkTimeout r_drained = chunkTimeout r_two_chunks /\
  forceTimeout r_drained = forceTimeout r_two_chunks.
Proof.
  split; [reflexivity|].
  apply (configuration_is_fixed r_two_chunks calls_two_chunks r_drained
           outs_two_chunks).
  reflexivity.
Defined.

(** X12.  For an underlying reader that never answers with bytes and an
    error together, nor with more than the block size, the bytes
    returned by any sequence of calls on a reader made by
    [NewNBReader], followed by the buffer and the slices still to be
    handed over, are the bytes the reader produced; and once [Read]
    returns [io.EOF], every byte produced has been returned. *)
Theorem produced_bytes_all_returned rd bs options calls r outs :
  Forall package_option options ->
  Forall (fun x => rr_err x <> ErrNil -> rr_data x = []) rd ->
  ending (readInput bs rd) <> Panicked ->
  run (NewNBReader rd bs options) calls = Some (r, outs) ->
  returned outs ++ buffer r ++ pending r = produced rd /\
  (forall len start obs o,
      Read r len start obs = Some o -> out_err o = io_EOF ->
      returned outs = produced rd).
Proof. apply nothing_lost. Qed.

Lemma produced_bytes_all_returned_witness :
  returned outs_two_chunks ++ buffer r_drained ++ pending r_drained
  = produced two_chunks /\
  (forall len start obs o,
      Read r_drained len start obs = Some o -> out_err o = io_EOF ->
      returned outs_two_chunks = produced two_chunks).
Proof.
  apply (produced_bytes_all_returned two_chunks 4
           [Timeout 1000000; ChunkTimeout 1000]
           calls_two_chunks r_drained outs_two_chunks).
  - repeat constructor; eexists; eauto.
  - repeat constructor; simpl; congruence.
  - discriminate.
  - reflexivity.
Defined.

(** ** A chunk timeout larger than the overall timeout *)

(** X13.  With a monotonic clock and a chunk timeout larger than the overall
    timeout (which the package does not check), the chunk timeout
    never bounds a wait: in every round the wait is bounded by what
    remains of the overall timeout. *)
Theorem chunk_timeout_too_large r len start obs o :
  0 <= forceTimeout r <= maxDuration ->
  forceTimeout r < chunkTimeout r ->
  Forall (fun ob => start <= now_remaining ob) obs ->
  Read r len start obs = Some o ->
  Forall (fun e => it_nextTimeout e = it_remaining e /\
                   it_remaining e <= forceTimeout r) (out_log o).
Proof.
  intros Hf Hc Hobs HR. apply Read_inv in HR.
  destruct HR as [_|_ _|r1 log _ _ Hl]; simpl; try constructor.
  apply Forall_forall. intros e He.
  destruct (In_nth_error _ _ He) as [k Hk].
  destruct (Read_loop_nth _ _ _ _ _ _ Hl k e Hk) as (ob & Hob & Hrem & Hn).
  apply nth_error_In in Hob.
  rewrite Forall_forall in Hobs. specialize (Hobs ob Hob).
  rewrite (remaining_of_exact r start _ Hf Hobs) in Hrem.
  pose proof (Sub_nonneg _ _ Hobs).
  split; [|lia].
  rewrite Hn. unfold nextTimeout_of.
  destruct (Z.gtb_spec (chunkTimeout r) (it_remaining e)); [|lia].
  now rewrite orb_true_r.
Qed.

Lemma chunk_timeout_too_large_witness :
  exists o,
    Read (NewNBReader one_block 2 [Timeout 1000; ChunkTimeout 5000]) 4 0
         [mkObs 0 0 false 1 1; mkObs 1 1 true 1000 1000] = Some o /\
    Forall (fun e => it_nextTimeout e = it_remaining e /\
                     it_remaining e <= 1000) (out_log o).
Proof.
  eexists. split; [reflexivity|].
  apply (chunk_timeout_too_large
           (NewNBReader one_block 2 [Timeout 1000; ChunkTimeout 5000]) 4 0
           [mkObs 0 0 false 1 1; mkObs 1 1 true 1000 1000]).
  - vm_compute. split; discriminate.
  - reflexivity.
  - repeat constructor; simpl; lia.
  - reflexivity.
Defined.

(** ** Reading past the end *)

Lemma Read_round_closed r start o :
  timer_first o = false -> queue (dataChan r) = [] ->
  ending (dataChan r) = Closed ->
  exists e,
    Read_round r start o =
    (Break, set_isEOF (set_buffer r (buffer r ++ [])) true, e).
Proof.
  intros Ht Hq He. unfold Read_round, readWithTimeout. rewrite Ht, Hq, He.
  simpl. eexists. reflexivity.
Qed.

Lemma Read_loop_to_the_end r len start obs :
  ending (dataChan r) = Closed ->
  Forall (fun o => timer_first o = false /\
                   Sub (now_force o) start < forceTimeout r) obs ->
  (Buffer.Len (buffer r) + length (pending r) < len)%nat ->
  (length (queue (dataChan r)) < length obs)%nat ->
  exists r2 log,
    Read_loop r len start obs = Some (r2, log) /\
    buffer r2 = buffer r ++ pending r /\ isEOF r2 = true /\
    queue (dataChan r2) = [] /\
    r2 = set_isEOF (set_buffer (set_dataChan r (mkChan [] Closed))
                               (buffer r ++ pending r)) true.
Proof.
  intros Hend Hobs. revert r Hend Hobs.
  induction obs as [|o obs IH]; intros r Hend Hobs Hlen Hq;
    [simpl in Hq; lia|].
  simpl. destruct (Nat.ltb_spec (Buffer.Len (buffer r)) len) as [Hlt|Hge];
    [|lia].
  inversion Hobs as [|? ? [Ht Hf] Hobs']; subst.
  destruct (queue (dataChan r)) as [|data q] eqn:E.
  - destruct (Read_round_closed r start o Ht E Hend) as [e ->].
    eexists; eexists. split; [reflexivity|].
    unfold pending. rewrite E. simpl. repeat split; [assumption|].
    destruct r as [? ? [? ?] ? ? ? ?]; simpl in *. now subst.
  - destruct (Read_round_receives r start o data q Ht E Hf) as [e ->].
    set (r1 := set_buffer (set_dataChan r (mkChan q (ending (dataChan r))))
                          (buffer r ++ data)).
    assert (Hbytes : buffer r1 ++ pending r1 = buffer r ++ pending r).
    { unfold pending. simpl. rewrite E. simpl. now rewrite app_assoc. }
    destruct (IH r1) as (r2 & log & Hl & Hb & Hi & Hq2 & Hr2).
    + exact Hend.
    + exact Hobs'.
    + apply (f_equal (@length byte)) in Hbytes. rewrite !length_app in Hbytes.
      unfold Buffer.Len in *. lia.
    + simpl in *. lia.
    + rewrite Hl. exists r2, (e :: log). split; [reflexivity|].
      rewrite Hb, Hbytes. repeat split; auto.
      rewrite Hr2, Hbytes. reflexivity.
Qed.

(** X14.  Once the goroutine has closed the channel, a call that asks for
    more bytes than are left, with the receive winning every [select],
    the overall timeout not reached and one round more than there are
    slices on their way, returns every byte that is left with a nil
    error and sets the flag; every later call for at least one byte
    returns 0 bytes and [io.EOF]. *)
Theorem Read_to_the_end r len start obs :
  isEOF r = false -> ending (dataChan r) = Closed ->
  Forall (fun o => timer_first o = false /\
                   Sub (now_force o) start < forceTimeout r) obs ->
  (Buffer.Len (buffer r) + length (pending r) < len)%nat ->
  (length (queue (dataChan r)) < length obs)%nat ->
  exists o,
    Read r len start obs = Some o /\
    out_data o = buffer r ++ pending r /\ out_err o = ErrNil /\
    isEOF (out_r o) = true /\ buffer (out_r o) = [] /\
    forall len' start' obs',
      (0 < len')%nat ->
      Read (out_r o) len' start' obs'
      = Some (mkOut [] io_EOF (out_r o) []).
Proof.
  intros He Hend Hobs Hlen Hq. unfold Read at 1. rewrite He.
  destruct (Nat.leb_spec len (Buffer.Len (buffer r))) as [Hle|Hlt]; [lia|].
  destruct (Read_loop_to_the_end r len start obs Hend Hobs Hlen Hq)
    as (r2 & log & -> & Hb & Hi & Hq2 & Hr2).
  rewrite Buffer_Read_eq. eexists. split; [reflexivity|]. simpl.
  assert (Hall : (length (buffer r2) < len)%nat).
  { rewrite Hb, length_app. unfold Buffer.Len in *. lia. }
  rewrite firstn_all2, skipn_all2 by lia.
  repeat split; auto.
  intros len' start' obs' Hl'. unfold Read. simpl. rewrite Hi.
  destruct len'; [lia|]. simpl. reflexivity.
Qed.

Lemma Read_to_the_end_witness :
  exists o,
    Read r_two_chunks 5 0
         [mkObs 1 1 false 5 5; mkObs 6 6 false 9 9; mkObs 10 10 false 11 11]
    = Some o /\
    out_data o = buffer r_two_chunks ++ pending r_two_chunks /\
    out_err o = ErrNil /\
    isEOF (out_r o) = true /\ buffer (out_r o) = [] /\
    forall len' start' obs',
      (0 < len')%nat ->
      Read (out_r o) len' start' obs'
      = Some (mkOut [] io_EOF (out_r o) []).
Proof.
  apply (Read_to_the_end r_two_chunks 5 0
           [mkObs 1 1 false 5 5; mkObs 6 6 false 9 9;
            mkObs 10 10 false 11 11]).
  - reflexivity.
  - reflexivity.
  - repeat constructor.
  - simpl. lia.
  - simpl. lia.
Defined.
